(** * youtube-offline: the download orchestration engine

    A shallow embedding of [src/utils.ts], [src/database.ts] and
    [src/downloader.ts] and the properties of the specification checked
    against it.

    Conventions of the embedding.
    - A JavaScript string is the sequence of its UTF-16 code units
      ([str]); regular expressions without the [u] flag work on code units.
    - A JavaScript number that the code only counts or compares is a [Z];
      the value computed by [parseFloat] is the exact decimal [Q] (the
      rounding to binary64 is not modelled).
    - An [async] method that is awaited to completion by its caller is a
      computation in the monad [M]: it threads the state of the process
      and returns, throws or waits for ever.  The places where the source gives
      control back to the event loop without being awaited (the drain loop
      and the job runner) are separate events of the event loop. *)

From Stdlib Require Import ZArith NArith QArith String Ascii List Bool Lia.
From stdpp Require Import base option list gmap strings pretty.

Import ListNotations.
Local Open Scope N_scope.

(** ** JavaScript strings *)

Abbreviation str := (list N).

(** A literal of the source text, as code units. *)
Definition js (s : string) : str :=
  List.map N_of_ascii (list_ascii_of_string s).
Arguments js : simpl never.

(** [WhiteSpace] and [LineTerminator] of ECMAScript: the class [\s] of a
    regular expression and the characters removed by [String.prototype.trim]. *)
Definition isSpace (c : N) : bool :=
  ((9 <=? c) && (c <=? 13)) || (c =? 32) || (c =? 160) || (c =? 5760)
  || ((8192 <=? c) && (c <=? 8202)) || (c =? 8232) || (c =? 8233)
  || (c =? 8239) || (c =? 8287) || (c =? 12288) || (c =? 65279).

(** The class [\d]. *)
Definition isDigit (c : N) : bool := (48 <=? c) && (c <=? 57).

(** The class [.]: everything but a line terminator. *)
Definition isDot (c : N) : bool :=
  negb ((c =? 10) || (c =? 13) || (c =? 8232) || (c =? 8233)).

Definition isChar (a : ascii) (c : N) : bool := c =? N_of_ascii a.

(** [String.prototype.trim], [substring(0, n)] and [includes]. *)
Fixpoint trimStart (s : str) : str :=
  match s with
  | [] => []
  | c :: t => if isSpace c then trimStart t else s
  end.

Fixpoint trimEnd (s : str) : str :=
  match s with
  | [] => []
  | c :: t =>
      match trimEnd t with
      | [] => if isSpace c then [] else [c]
      | t' => c :: t'
      end
  end.

Definition trim (s : str) : str := trimStart (trimEnd s).

Definition substring0 (n : nat) (s : str) : str := take n s.

Fixpoint startsWith (p s : str) : bool :=
  match p, s with
  | [], _ => true
  | a :: p', c :: s' => (a =? c) && startsWith p' s'
  | _ :: _, [] => false
  end.

Fixpoint includes (p s : str) : bool :=
  startsWith p s || match s with [] => false | _ :: t => includes p t end.

(** ** Regular expressions

    The regular expressions of the source are sequences of character
    classes, each with a quantifier, and hold at most one capture group.
    [matchHere] is the backtracking matcher of ECMAScript for them: a
    quantifier is greedy and gives characters back when the rest of the
    pattern fails. *)

Inductive quant := One | Opt | Star | Plus.

Record atom := Atom { cls : N -> bool; qnt : quant; captured : bool }.

Definition keep (a : atom) (c : N) (r : option str) : option str :=
  if captured a then (fun g => c :: g) <$> r else r.

Fixpoint matchHere (p : list atom) : str -> option str :=
  match p with
  | [] => fun _ => Some []
  | a :: p' =>
      let many :=
        fix many (s : str) : option str :=
          match s with
          | c :: t =>
              if cls a c then
                match keep a c (many t) with
                | Some g => Some g
                | None => matchHere p' s
                end
              else matchHere p' s
          | [] => matchHere p' []
          end in
      match qnt a with
      | One => fun s =>
          match s with
          | c :: t => if cls a c then keep a c (matchHere p' t) else None
          | [] => None
          end
      | Opt => fun s =>
          match s with
          | c :: t =>
              if cls a c then
                match keep a c (matchHere p' t) with
                | Some g => Some g
                | None => matchHere p' s
                end
              else matchHere p' s
          | [] => matchHere p' []
          end
      | Star => many
      | Plus => fun s =>
          match s with
          | c :: t => if cls a c then keep a c (many t) else None
          | [] => None
          end
      end
  end.

(** [String.prototype.match] with a regular expression without the [g]
    flag: the leftmost match; the result is capture group 1. *)
Fixpoint regexMatch (p : list atom) (s : str) : option str :=
  match matchHere p s with
  | Some g => Some g
  | None => match s with [] => None | _ :: t => regexMatch p t end
  end.

Definition lit (s : string) : list atom :=
  List.map (fun a => Atom (isChar a) One false) (list_ascii_of_string s).

(** The regular expression of [parseProgress]: the text [[download]], one
    or more white space characters, the group (one or more digits, an
    optional dot, any number of digits) and a percent sign. *)
Definition progressRegex : list atom :=
  lit "[download]" ++
  [ Atom isSpace Plus false;
    Atom isDigit Plus true; Atom (isChar ".") Opt true; Atom isDigit Star true;
    Atom (isChar "%") One false ].

(** The regular expression of the stdout handler of [downloadVideo]: the
    text [[download] Destination: ] and the group (one or more characters
    other than a line terminator). *)
Definition destinationRegex : list atom :=
  lit "[download] Destination: " ++ [ Atom isDot Plus true ].

(** ** utils.ts *)

Definition isInvalidChar (c : N) : bool :=
  (c =? 60) || (c =? 62) || (c =? 58) || (c =? 34) || (c =? 47)
  || (c =? 92) || (c =? 124) || (c =? 63) || (c =? 42).

(** The first [replace] of [sanitizeFilename], with the [g] flag: each of
    the characters less-than, greater-than, colon, double quote, slash,
    backslash, bar, question mark and asterisk becomes a hyphen. *)
Definition replaceInvalid (s : str) : str :=
  List.map (fun c => if isInvalidChar c then 45 else c) s.

(** The second [replace], with the [g] flag: each maximal run of white
    space becomes one space.  [inRun] tells that the character before is
    white space of the run being replaced. *)
Fixpoint collapseSpaces (inRun : bool) (s : str) : str :=
  match s with
  | [] => []
  | c :: t =>
      if isSpace c then
        if inRun then collapseSpaces true t else 32 :: collapseSpaces true t
      else c :: collapseSpaces false t
  end.

Definition sanitizeFilename (filename : str) : str :=
  substring0 200 (trim (collapseSpaces false (replaceInvalid filename))).

(** A JavaScript number as far as [parseFloat] produces one here. *)
Inductive number := NaN | Num (q : Q).

Definition digitVal (c : N) : Z := Z.of_N (c - 48).

Fixpoint span (f : N -> bool) (s : str) : str * str :=
  match s with
  | c :: t => if f c then let (a, b) := span f t in (c :: a, b) else ([], s)
  | [] => ([], [])
  end.

Definition digitsVal (ds : str) : Z :=
  fold_left (fun acc c => 10 * acc + digitVal c)%Z ds 0%Z.

(** [parseFloat] on an unsigned decimal literal without exponent: the
    longest prefix [digits], [digits.] or [digits.digits]. *)
Definition parseFloat (s : str) : number :=
  let (ip, r) := span isDigit s in
  match ip with
  | [] => NaN
  | _ =>
      match r with
      | 46 :: r' =>
          let (fp, _) := span isDigit r' in
          Num (Qred (inject_Z (digitsVal ip)
                     + (digitsVal fp # Pos.of_nat (Nat.pow 10 (length fp)))))%Q
      | _ => Num (inject_Z (digitsVal ip))
      end
  end.

Definition parseProgress (line : str) : option number :=
  match regexMatch progressRegex line with
  | Some g => Some (parseFloat g)
  | None => None
  end.


(** ** Computations that return or throw

    The outcome of an awaited computation: it returns, it throws (the
    promise is rejected), or the promise it awaits is never settled. *)

Inductive result (A : Type) : Type :=
  | Ok (a : A)
  | Throw (message : str)
  | Pending.
Arguments Ok {A} a.
Arguments Throw {A} message.
Arguments Pending {A}.

Definition M (S A : Type) : Type := S -> result A * S.

Definition ret {S A} (a : A) : M S A := fun s => (Ok a, s).

Definition throw {S A} (message : str) : M S A := fun s => (Throw message, s).

Definition bind {S A B} (m : M S A) (k : A -> M S B) : M S B :=
  fun s =>
    match m s with
    | (Ok a, s') => k a s'
    | (Throw e, s') => (Throw e, s')
    | (Pending, s') => (Pending, s')
    end.

(** [try { m } catch (error) { h error }] *)
Definition catch {S A} (m : M S A) (h : str -> M S A) : M S A :=
  fun s =>
    match m s with
    | (Ok a, s') => (Ok a, s')
    | (Throw e, s') => h e s'
    | (Pending, s') => (Pending, s')
    end.

Definition gets {S A} (f : S -> A) : M S A := fun s => (Ok (f s), s).

Definition modify {S} (f : S -> S) : M S unit := fun s => (Ok tt, f s).

(** A computation on a component of the state. *)
Definition zoom {S T A} (get : S -> T) (set : T -> S -> S) (m : M T A) : M S A :=
  fun s => let (r, t) := m (get s) in (r, set t s).

Notation "x <- m ;; k" := (bind m (fun x => k))
  (at level 100, m at next level, right associativity).
Notation "m ;;; k" := (bind m (fun _ => k))
  (at level 100, right associativity).

(** [for (const x of l) { f x }] *)
Fixpoint forEach {S A} (l : list A) (f : A -> M S unit) : M S unit :=
  match l with
  | [] => ret tt
  | x :: t => f x ;;; forEach t f
  end.

(** [l.filter(f)] with a callback that may throw. *)
Fixpoint filterM {S A} (f : A -> M S bool) (l : list A) : M S (list A) :=
  match l with
  | [] => ret []
  | x :: t =>
      b <- f x ;;
      r <- filterM f t ;;
      ret (if b then x :: r else r)
  end.

(** ** types.ts *)

Module Playlist.
Record t := Make {
  id : str;
  url : str;
  title : str;
  lastChecked : option str;
  enabled : bool }.
End Playlist.

Inductive VideoStatus := completed | failed.

Module Video.
Record t := Make {
  id : str;
  playlistId : str;
  title : str;
  downloadedAt : str;
  filepath : str;
  status : VideoStatus;
  error : option str;
  hasSponsorBlock : option bool }.
End Video.

Module Config.
Record t := Make {
  downloadPath : str;
  checkIntervalHours : Z;
  port : Z;
  quality : str;
  maxConcurrentDownloads : Z;
  sponsorBlockCategories : list str }.
End Config.

Module Database.
Record t := Make {
  playlists : list Playlist.t;
  videos : list Video.t }.
End Database.

Inductive ProgressStatus := downloading | pcompleted | pfailed | queued.

Module DownloadProgress.
Record t := Make {
  videoId : str;
  title : str;
  progress : number;
  status : ProgressStatus;
  error : option str }.
End DownloadProgress.

(** [Partial<Playlist>]: the fields that are present. *)
Module PlaylistUpdate.
Record t := Make {
  id : option str;
  url : option str;
  title : option str;
  lastChecked : option (option str);
  enabled : option bool }.
Definition none : t := Make None None None None None.
End PlaylistUpdate.

Definition status_eqb (a b : VideoStatus) : bool :=
  match a, b with
  | completed, completed | failed, failed => true
  | _, _ => false
  end.

Definition str_eqb (a b : str) : bool := bool_decide (a = b).

(** ** database.ts

    The state of the [DatabaseManager]: the object in memory ([db], [null]
    before [load]) and the file [database.json].  [save] is the only
    operation that writes the file; [diskError n] is the error, if any,
    with which the file system answers the [n]-th call of [save]. *)

Module DatabaseManager.
Record t := Make {
  db : option Database.t;
  file : option Database.t;
  saves : nat;
  diskError : nat -> option str }.
End DatabaseManager.

Definition DB (A : Type) : Type := M DatabaseManager.t A.

Definition DEFAULT_DATABASE : Database.t := Database.Make [] [].

Definition setDb (d : Database.t) : DB unit :=
  modify (fun m =>
    DatabaseManager.Make (Some d) (DatabaseManager.file m)
      (DatabaseManager.saves m) (DatabaseManager.diskError m)).

(** The temporary file is written and renamed onto [database.json]; when
    either step fails the file keeps its content. *)
Definition save : DB unit :=
  fun m =>
    match DatabaseManager.db m with
    | None => (Throw (js "Database not loaded"), m)
    | Some d =>
        match DatabaseManager.diskError m (DatabaseManager.saves m) with
        | Some e =>
            (Throw e,
             DatabaseManager.Make (Some d) (DatabaseManager.file m)
               (S (DatabaseManager.saves m)) (DatabaseManager.diskError m))
        | None =>
            (Ok tt,
             DatabaseManager.Make (Some d) (Some d)
               (S (DatabaseManager.saves m)) (DatabaseManager.diskError m))
        end
    end.

(** [load], for a file that is absent or holds a database. *)
Definition load : DB Database.t :=
  fun m =>
    match DatabaseManager.file m with
    | Some d =>
        (Ok d, DatabaseManager.Make (Some d) (DatabaseManager.file m)
                 (DatabaseManager.saves m) (DatabaseManager.diskError m))
    | None => (setDb DEFAULT_DATABASE ;;; save ;;; ret DEFAULT_DATABASE) m
    end.

Definition getDatabase : DB Database.t :=
  fun m =>
    match DatabaseManager.db m with
    | None => (Throw (js "Database not loaded. Call load() first."), m)
    | Some d => (Ok d, m)
    end.

Definition addPlaylist (generatedId : str) (playlist : Playlist.t) : DB Playlist.t :=
  d <- getDatabase ;;
  let newPlaylist :=
    Playlist.Make generatedId (Playlist.url playlist) (Playlist.title playlist)
      (Playlist.lastChecked playlist) (Playlist.enabled playlist) in
  setDb (Database.Make (Database.playlists d ++ [newPlaylist]) (Database.videos d)) ;;;
  save ;;;
  ret newPlaylist.

Definition removePlaylist (id : str) : DB bool :=
  d <- getDatabase ;;
  let initialLength := length (Database.playlists d) in
  let playlists' :=
    List.filter (fun p => negb (str_eqb (Playlist.id p) id)) (Database.playlists d) in
  setDb (Database.Make playlists' (Database.videos d)) ;;;
  if Nat.ltb (length playlists') initialLength then
    setDb (Database.Make playlists'
             (List.filter (fun v => negb (str_eqb (Video.playlistId v) id))
                (Database.videos d))) ;;;
    save ;;;
    ret true
  else ret false.

(** [Object.assign(playlist, updates)] *)
Definition assign (p : Playlist.t) (u : PlaylistUpdate.t) : Playlist.t :=
  Playlist.Make
    (default (Playlist.id p) (PlaylistUpdate.id u))
    (default (Playlist.url p) (PlaylistUpdate.url u))
    (default (Playlist.title p) (PlaylistUpdate.title u))
    (default (Playlist.lastChecked p) (PlaylistUpdate.lastChecked u))
    (default (Playlist.enabled p) (PlaylistUpdate.enabled u)).

(** The first element that satisfies [f] is replaced by its image. *)
Fixpoint updateFirst {A} (f : A -> bool) (g : A -> A) (l : list A) : list A :=
  match l with
  | [] => []
  | x :: t => if f x then g x :: t else x :: updateFirst f g t
  end.

Definition updatePlaylist (id : str) (updates : PlaylistUpdate.t)
  : DB (option Playlist.t) :=
  d <- getDatabase ;;
  match List.find (fun p => str_eqb (Playlist.id p) id) (Database.playlists d) with
  | None => ret None
  | Some playlist =>
      setDb (Database.Make
               (updateFirst (fun p => str_eqb (Playlist.id p) id)
                  (fun p => assign p updates) (Database.playlists d))
               (Database.videos d)) ;;;
      save ;;;
      ret (Some (assign playlist updates))
  end.

Definition getPlaylists : DB (list Playlist.t) :=
  d <- getDatabase ;; ret (Database.playlists d).

(** [video] is the argument without [downloadedAt]; [now] is the reading
    of the clock. *)
Definition addVideo (now : str) (video : Video.t) : DB Video.t :=
  d <- getDatabase ;;
  let newVideo :=
    Video.Make (Video.id video) (Video.playlistId video) (Video.title video)
      now (Video.filepath video) (Video.status video) (Video.error video)
      (Video.hasSponsorBlock video) in
  setDb (Database.Make (Database.playlists d) (Database.videos d ++ [newVideo])) ;;;
  save ;;;
  ret newVideo.

(** [if (playlistId)]: an absent and an empty argument both give every
    record. *)
Definition getVideos (playlistId : option str) : DB (list Video.t) :=
  d <- getDatabase ;;
  match playlistId with
  | Some (c :: p) =>
      ret (List.filter (fun v => str_eqb (Video.playlistId v) (c :: p))
             (Database.videos d))
  | _ => ret (Database.videos d)
  end.

Definition isCompletedFor (videoId : str) (v : Video.t) : bool :=
  str_eqb (Video.id v) videoId && status_eqb (Video.status v) completed.

Definition isVideoDownloaded (videoId : str) : DB bool :=
  d <- getDatabase ;;
  ret (existsb (isCompletedFor videoId) (Database.videos d)).

(** [findIndex]; [None] is the index -1. *)
Fixpoint findIndex {A} (f : A -> bool) (l : list A) : option nat :=
  match l with
  | [] => None
  | x :: t => if f x then Some 0%nat else S <$> findIndex f t
  end.

Definition deleteVideo (videoId : str) : DB (option Video.t) :=
  d <- getDatabase ;;
  match findIndex (fun v => str_eqb (Video.id v) videoId) (Database.videos d) with
  | None => ret None
  | Some videoIndex =>
      let deletedVideo := Database.videos d !! videoIndex in
      setDb (Database.Make (Database.playlists d)
               (delete videoIndex (Database.videos d))) ;;;
      save ;;;
      ret deletedVideo
  end.

(** ** The probe of the SponsorBlock service

    [JSON.parse] is the platform's; a parse failure is [None].  Only the
    shape of the parsed value matters to the probe. *)

#[local] Unset Elimination Schemes.
Inductive json :=
  | JNull
  | JBool (b : bool)
  | JNumber (q : Q)
  | JString (s : str)
  | JArray (items : list json)
  | JObject (fields : list (str * json)).
#[local] Set Elimination Schemes.

(** [Array.isArray(parsed) && parsed.length > 0] *)
Definition isNonEmptyArray (parsed : json) : bool :=
  match parsed with
  | JArray (_ :: _) => true
  | _ => false
  end.

(** The version built on [https.get] with a time-out of 10 seconds.  What
    the platform does with the request is the sequence of events it
    delivers to the listeners that the code registers. *)
Module Https.

Inductive event :=
  | Response (statusCode : Z)
  | Data (chunk : str)
  | BodyEnd
  | RequestError (message : str)
  | RequestTimeout.

(** The call of [https.get] (and the construction of its URL) throws, or
    returns a request that emits events. *)
Inductive outcome :=
  | GetThrows (message : str)
  | GetEmits (events : list event).

Record state := State {
  settled : option bool;   (* the value the promise is resolved with *)
  listening : bool;        (* the listeners of the response are attached *)
  data : str }.

(** [resolve(b)]: only the first call settles the promise. *)
Definition resolve (b : bool) (st : state) : state :=
  match settled st with
  | Some _ => st
  | None => State (Some b) (listening st) (data st)
  end.

Definition handle (JSON_parse : str -> option json) (st : state) (ev : event)
  : state :=
  match ev with
  | Response statusCode =>
      if (statusCode =? 404)%Z then resolve false st
      else if negb (statusCode =? 200)%Z then resolve false st
      else State (settled st) true []
  | Data chunk =>
      if listening st then State (settled st) true (data st ++ chunk) else st
  | BodyEnd =>
      if listening st then
        match JSON_parse (data st) with
        | Some parsed => resolve (isNonEmptyArray parsed) st
        | None => resolve false st
        end
      else st
  | RequestError _ => resolve false st
  | RequestTimeout => resolve false st
  end.

Definition checkSponsorBlockData (JSON_parse : str -> option json)
    (o : outcome) : result bool :=
  match o with
  | GetThrows _ => Ok false
  | GetEmits events =>
      match settled (fold_left (handle JSON_parse) events (State None false [])) with
      | Some b => Ok b
      | None => Pending
      end
  end.

End Https.

(** The version built on [fetch]. *)
Module Fetch.

Inductive outcome :=
  | FetchRejects (message : str)
  | FetchResponse (status : Z) (body : str).

Definition ok (status : Z) : bool := ((200 <=? status) && (status <=? 299))%Z.

Definition checkSponsorBlockData (JSON_parse : str -> option json)
    (o : outcome) : result bool :=
  match o with
  | FetchRejects _ => Ok false
  | FetchResponse status body =>
      if (status =? 404)%Z then Ok false
      else if negb (ok status) then Ok false
      else
        match JSON_parse body with
        | Some parsed => Ok (isNonEmptyArray parsed)
        | None => Ok false
        end
  end.

End Fetch.

(** ** downloader.ts: data *)

Module VideoInfo.
Record t := Make { id : str; title : str; url : str }.
End VideoInfo.

Module PlaylistInfo.
Record t := Make { id : str; title : str; entries : list VideoInfo.t }.
End PlaylistInfo.

(** An element of [downloadQueue]: [VideoInfo & { playlistId: string }]. *)
Module QueueItem.
Record t := Make { id : str; title : str; url : str; playlistId : str }.
End QueueItem.

(** The document printed by [yt-dlp --flat-playlist --dump-single-json], as
    far as [getPlaylistInfo] reads it. *)
Module RawEntry.
Record t := Make { id : str; title : option str; url : option str }.
End RawEntry.

Module RawPlaylist.
Record t := Make {
  id : str;
  title : option str;
  entries : option (list RawEntry.t) }.
End RawPlaylist.

(** What the environment answers during one operation. *)
Module Env.
Record t := Make {
  now : str;                                   (* new Date().toISOString() *)
  listing : str -> result RawPlaylist.t;       (* yt-dlp on a playlist URL *)
  rmError : str -> option str;                 (* fs.rm of a folder *)
  fileExists : str -> bool;                    (* fs.access of a file *)
  network : str -> list str -> Https.outcome;  (* the request of the probe *)
  JSON_parse : str -> option json }.
End Env.

(** The stages of one call of [downloadVideo]. *)
Inductive Phase :=
  | AwaitMkdir   (* suspended at [await fs.mkdir] *)
  | Running      (* the process is spawned, the listeners are attached *)
  | Closed.

(** The variables of one call of [downloadVideo] that its listeners share.
    [progress] is the object that the call creates; [activeDownloads]
    holds a reference to it. *)
Module Job.
Record t := Make {
  video : QueueItem.t;
  config : Config.t;
  sanitizedTitle : str;
  videoFolder : str;
  outputPath : str;
  progress : DownloadProgress.t;
  phase : Phase }.
End Job.

(** The state of the process: the singletons [db], [configManager] and
    [downloader], the calls of [downloadVideo] in flight, the drain loop
    when it sleeps in its time-out (with the configuration it holds), and
    the list of the items for which the probe was called. *)
Module World.
Record t := Make {
  database : DatabaseManager.t;
  configManager : option Config.t;
  activeDownloads : gmap str nat;
  downloadQueue : list QueueItem.t;
  isProcessingQueue : bool;
  jobs : list Job.t;
  drainTimer : option Config.t;
  probed : list str }.
End World.

Definition setDatabase (x : DatabaseManager.t) (w : World.t) : World.t :=
  World.Make x (World.configManager w) (World.activeDownloads w)
    (World.downloadQueue w) (World.isProcessingQueue w) (World.jobs w)
    (World.drainTimer w) (World.probed w).

Definition setActiveDownloads (x : gmap str nat) (w : World.t) : World.t :=
  World.Make (World.database w) (World.configManager w) x
    (World.downloadQueue w) (World.isProcessingQueue w) (World.jobs w)
    (World.drainTimer w) (World.probed w).

Definition setDownloadQueue (x : list QueueItem.t) (w : World.t) : World.t :=
  World.Make (World.database w) (World.configManager w) (World.activeDownloads w)
    x (World.isProcessingQueue w) (World.jobs w)
    (World.drainTimer w) (World.probed w).

Definition setIsProcessingQueue (x : bool) (w : World.t) : World.t :=
  World.Make (World.database w) (World.configManager w) (World.activeDownloads w)
    (World.downloadQueue w) x (World.jobs w)
    (World.drainTimer w) (World.probed w).

Definition setJobs (x : list Job.t) (w : World.t) : World.t :=
  World.Make (World.database w) (World.configManager w) (World.activeDownloads w)
    (World.downloadQueue w) (World.isProcessingQueue w) x
    (World.drainTimer w) (World.probed w).

Definition setDrainTimer (x : option Config.t) (w : World.t) : World.t :=
  World.Make (World.database w) (World.configManager w) (World.activeDownloads w)
    (World.downloadQueue w) (World.isProcessingQueue w) (World.jobs w)
    x (World.probed w).

Definition setProbed (x : list str) (w : World.t) : World.t :=
  World.Make (World.database w) (World.configManager w) (World.activeDownloads w)
    (World.downloadQueue w) (World.isProcessingQueue w) (World.jobs w)
    (World.drainTimer w) x.

Definition W (A : Type) : Type := M World.t A.

(** A method of [db] called by the downloader. *)
Definition onDb {A} (m : DB A) : W A := zoom World.database setDatabase m.

Definition getConfig : W Config.t :=
  fun w =>
    match World.configManager w with
    | None => (Throw (js "Config not loaded. Call load() first."), w)
    | Some c => (Ok c, w)
    end.

(** [path.join] of two segments (without its normalisation). *)
Definition pathJoin (a b : str) : str := a ++ js "/" ++ b.
Arguments pathJoin : simpl never.

(** [a || d] on a string that may be absent: absent and empty are falsy. *)
Definition orElse (a : option str) (d : str) : str :=
  match a with
  | Some (c :: s) => c :: s
  | _ => d
  end.

Definition watchUrl (id : str) : str := js "https://www.youtube.com/watch?v=" ++ id.

Definition getPlaylistInfo (env : Env.t) (playlistUrl : str) : W PlaylistInfo.t :=
  fun w =>
    match Env.listing env playlistUrl with
    | Ok data =>
        (Ok (PlaylistInfo.Make (RawPlaylist.id data)
               (orElse (RawPlaylist.title data) (js "Untitled Playlist"))
               (List.map
                  (fun entry =>
                     VideoInfo.Make (RawEntry.id entry)
                       (orElse (RawEntry.title entry) (js "Untitled Video"))
                       (orElse (RawEntry.url entry) (watchUrl (RawEntry.id entry))))
                  (default [] (RawPlaylist.entries data)))), w)
    | Throw message => (Throw (js "Failed to fetch playlist info: " ++ message), w)
    | Pending => (Pending, w)
    end.

(** ** downloader.ts: the queue *)

(** [downloadVideo] up to its first [await]: a call whose configuration
    cannot be read is rejected at once (the caller logs the rejection). *)
Definition downloadVideoStart (video : QueueItem.t) (w : World.t) : World.t :=
  match World.configManager w with
  | None => w
  | Some config =>
      let sanitizedTitle := sanitizeFilename (QueueItem.title video) in
      let videoFolder := pathJoin (Config.downloadPath config) (QueueItem.id video) in
      setJobs
        (World.jobs w ++
           [Job.Make video config sanitizedTitle videoFolder []
              (DownloadProgress.Make (QueueItem.id video) (QueueItem.title video)
                 (Num 0) downloading None)
              AwaitMkdir]) w
  end.

(** The [while] loop of [processQueue] from a test of its condition to the
    point where it sleeps or ends; [queue] is [this.downloadQueue]. *)
Fixpoint drainLoop (config : Config.t) (queue : list QueueItem.t) (w : World.t)
  : World.t :=
  match queue with
  | [] => setIsProcessingQueue false (setDownloadQueue [] w)
  | video :: rest =>
      if (Z.of_nat (size (World.activeDownloads w))
          >=? Config.maxConcurrentDownloads config)%Z
      then setDrainTimer (Some config) (setDownloadQueue queue w)
      else drainLoop config rest (downloadVideoStart video (setDownloadQueue rest w))
  end.

(** A call of [processQueue] that is not awaited, up to the point where it
    gives control back. *)
Definition processQueue (w : World.t) : World.t :=
  if World.isProcessingQueue w then w
  else
    let w := setIsProcessingQueue true w in
    match World.configManager w with
    | None => w
    | Some config => drainLoop config (World.downloadQueue w) w
    end.

(** The time-out of the sleeping loop fires: [continue]. *)
Definition timerFired (w : World.t) : World.t :=
  match World.drainTimer w with
  | None => w
  | Some config => drainLoop config (World.downloadQueue w) (setDrainTimer None w)
  end.

Definition getQueueLength (w : World.t) : nat := length (World.downloadQueue w).

(** The progress objects that [activeDownloads] refers to. *)
Definition getActiveDownloads (w : World.t) : list DownloadProgress.t :=
  omap (fun kv => Job.progress <$> World.jobs w !! kv.2)
    (map_to_list (World.activeDownloads w)).

(** ** downloader.ts: the job runner *)

Definition setJob (j : nat) (job : Job.t) (w : World.t) : World.t :=
  setJobs (<[j := job]> (World.jobs w)) w.

Definition withPhase (p : Phase) (job : Job.t) : Job.t :=
  Job.Make (Job.video job) (Job.config job) (Job.sanitizedTitle job)
    (Job.videoFolder job) (Job.outputPath job) (Job.progress job) p.

Definition withOutput (outputPath : str) (progress : number) (job : Job.t) : Job.t :=
  Job.Make (Job.video job) (Job.config job) (Job.sanitizedTitle job)
    (Job.videoFolder job) outputPath
    (DownloadProgress.Make (DownloadProgress.videoId (Job.progress job))
       (DownloadProgress.title (Job.progress job)) progress
       (DownloadProgress.status (Job.progress job))
       (DownloadProgress.error (Job.progress job)))
    (Job.phase job).

Definition withStatus (status : ProgressStatus) (error : option str) (job : Job.t)
  : Job.t :=
  Job.Make (Job.video job) (Job.config job) (Job.sanitizedTitle job)
    (Job.videoFolder job) (Job.outputPath job)
    (DownloadProgress.Make (DownloadProgress.videoId (Job.progress job))
       (DownloadProgress.title (Job.progress job))
       (DownloadProgress.progress (Job.progress job)) status error)
    (Job.phase job).

(** [fs.mkdir] of job [j] is done: the call goes on to register its
    progress object and to spawn the process.  When [fs.mkdir] fails the
    call is rejected before it registers anything. *)
Definition mkdirDone (j : nat) (error : option str) (w : World.t) : World.t :=
  match World.jobs w !! j with
  | Some job =>
      match Job.phase job, error with
      | AwaitMkdir, Some _ => setJob j (withPhase Closed job) w
      | AwaitMkdir, None =>
          setActiveDownloads
            (<[QueueItem.id (Job.video job) := j]> (World.activeDownloads w))
            (setJob j (withPhase Running job) w)
      | _, _ => w
      end
  | None => w
  end.

(** [line.match(...)] with the regular expression of the destination and,
    when it matches, [destMatch[1].trim()]. *)
Definition matchDestination (line : str) : option str :=
  trim <$> regexMatch destinationRegex line.

(** The listener of [stdout]. *)
Definition onStdout (line : str) (job : Job.t) : Job.t :=
  let progress1 :=
    match parseProgress line with
    | Some progressValue => progressValue
    | None => DownloadProgress.progress (Job.progress job)
    end in
  let outputPath1 :=
    match matchDestination line with
    | Some destination => destination
    | None => Job.outputPath job
    end in
  let progress2 :=
    if includes (js "100%") line || includes (js "has already been downloaded") line
    then Num 100 else progress1 in
  withOutput outputPath1 progress2 job.

Definition stdoutData (j : nat) (line : str) (w : World.t) : World.t :=
  match World.jobs w !! j with
  | Some job =>
      match Job.phase job with
      | Running => setJob j (onStdout line job) w
      | _ => w
      end
  | None => w
  end.

(** The first of the extensions whose file exists. *)
Fixpoint findOutput (env : Env.t) (videoFolder sanitizedTitle : str)
    (possibleExtensions : list str) : str :=
  match possibleExtensions with
  | [] => []
  | ext :: rest =>
      let testPath := pathJoin videoFolder (sanitizedTitle ++ js "." ++ ext) in
      if Env.fileExists env testPath then testPath
      else findOutput env videoFolder sanitizedTitle rest
  end.

(** A call of the probe: the request is logged, the answer is the
    environment's. *)
Definition checkSponsorBlockData (env : Env.t) (videoId : str)
    (categories : list str) : W bool :=
  fun w =>
    (Https.checkSponsorBlockData (Env.JSON_parse env)
       (Env.network env videoId categories),
     setProbed (World.probed w ++ [videoId]) w).

Definition showCode (code : option Z) : str :=
  match code with
  | Some n => js (pretty n)
  | None => js "null"
  end.

(** The listener of [close], after it has removed the job from
    [activeDownloads]. *)
Definition onClose (env : Env.t) (j : nat) (job : Job.t) (code : option Z) : W unit :=
  let video := Job.video job in
  match code with
  | Some 0%Z =>
      modify (setJob j (withPhase Closed (withStatus pcompleted None job))) ;;;
      let outputPath :=
        match Job.outputPath job with
        | [] => findOutput env (Job.videoFolder job) (Job.sanitizedTitle job)
                  [js "mp4"; js "webm"; js "mkv"]
        | p => p
        end in
      hasSponsorBlock <-
        checkSponsorBlockData env (QueueItem.id video)
          (Config.sponsorBlockCategories (Job.config job)) ;;
      onDb (addVideo (Env.now env)
        (Video.Make (QueueItem.id video) (QueueItem.playlistId video)
           (QueueItem.title video) []
           (match outputPath with
            | [] => pathJoin (Job.videoFolder job) (Job.sanitizedTitle job ++ js ".mp4")
            | p => p
            end)
           completed None (Some hasSponsorBlock))) ;;;
      ret tt
  | _ =>
      let error := js "yt-dlp exited with code " ++ showCode code in
      modify (setJob j (withPhase Closed (withStatus pfailed (Some error) job))) ;;;
      onDb (addVideo (Env.now env)
        (Video.Make (QueueItem.id video) (QueueItem.playlistId video)
           (QueueItem.title video) [] [] failed (Some error) None)) ;;;
      ret tt
  end.

(** The process of job [j] is closed with [code].  The listener is not
    awaited by anyone: what it throws is lost. *)
Definition processClosed (env : Env.t) (j : nat) (code : option Z) (w : World.t)
  : World.t :=
  match World.jobs w !! j with
  | Some job =>
      match Job.phase job with
      | Running =>
          (onClose env j job code
             (setActiveDownloads
                (delete (QueueItem.id (Job.video job)) (World.activeDownloads w)) w)).2
      | _ => w
      end
  | None => w
  end.

(** The listener of [error] of the process.  The job stays in [Running]:
    the platform may still emit [close] for it. *)
Definition processError (env : Env.t) (j : nat) (message : str) (w : World.t)
  : World.t :=
  match World.jobs w !! j with
  | Some job =>
      match Job.phase job with
      | Running =>
          let video := Job.video job in
          ((modify (setJob j (withStatus pfailed (Some message) job)) ;;;
            onDb (addVideo (Env.now env)
              (Video.Make (QueueItem.id video) (QueueItem.playlistId video)
                 (QueueItem.title video) [] [] failed (Some message) None)))
             (setActiveDownloads
                (delete (QueueItem.id (Job.video job)) (World.activeDownloads w)) w)).2
      | _ => w
      end
  | None => w
  end.

(** ** downloader.ts: reconciliation and the sweep *)

Definition fsRm (env : Env.t) (folder : str) : W unit :=
  match Env.rmError env folder with
  | Some message => throw message
  | None => ret tt
  end.

Definition toQueueItem (playlistId : str) (video : VideoInfo.t) : QueueItem.t :=
  QueueItem.Make (VideoInfo.id video) (VideoInfo.title video) (VideoInfo.url video)
    playlistId.

Definition pushAll (items : list QueueItem.t) : W unit :=
  modify (fun w => setDownloadQueue (World.downloadQueue w ++ items) w).

Definition startProcessing : W unit :=
  modify (fun w => if World.isProcessingQueue w then w else processQueue w).

Definition syncPlaylist (env : Env.t) (playlist : Playlist.t) : W Z :=
  playlistInfo <- getPlaylistInfo env (Playlist.url playlist) ;;
  (if str_eqb (PlaylistInfo.title playlistInfo) (Playlist.title playlist)
   then ret tt
   else onDb (updatePlaylist (Playlist.id playlist)
                (PlaylistUpdate.Make None None (Some (PlaylistInfo.title playlistInfo))
                   None None)) ;;; ret tt) ;;;
  let currentVideoIds : gset str :=
    list_to_set (List.map VideoInfo.id (PlaylistInfo.entries playlistInfo)) in
  dbVideos <- onDb (getVideos (Some (Playlist.id playlist))) ;;
  let videosToDelete :=
    List.filter (fun v => negb (bool_decide (Video.id v ∈ currentVideoIds))) dbVideos in
  forEach videosToDelete (fun video =>
    config <- getConfig ;;
    let videoFolder := pathJoin (Config.downloadPath config) (Video.id video) in
    catch (fsRm env videoFolder) (fun _ => ret tt) ;;;
    onDb (deleteVideo (Video.id video)) ;;;
    ret tt) ;;;
  newVideos <-
    filterM (fun video =>
               downloaded <- onDb (isVideoDownloaded (VideoInfo.id video)) ;;
               ret (negb downloaded))
      (PlaylistInfo.entries playlistInfo) ;;
  pushAll (List.map (toQueueItem (Playlist.id playlist)) newVideos) ;;;
  onDb (updatePlaylist (Playlist.id playlist)
          (PlaylistUpdate.Make None None None (Some (Some (Env.now env))) None)) ;;;
  startProcessing ;;;
  ret (Z.of_nat (length newVideos)).

Definition syncAllPlaylists (env : Env.t) : W unit :=
  all <- onDb getPlaylists ;;
  forEach (List.filter Playlist.enabled all) (fun playlist =>
    catch (syncPlaylist env playlist ;;; ret tt) (fun _ => ret tt)).

Definition redownloadVideo (env : Env.t) (video : Video.t) : W unit :=
  config <- getConfig ;;
  let videoFolder := pathJoin (Config.downloadPath config) (Video.id video) in
  fsRm env videoFolder ;;;
  onDb (deleteVideo (Video.id video)) ;;;
  pushAll [QueueItem.Make (Video.id video) (Video.title video)
             (watchUrl (Video.id video)) (Video.playlistId video)] ;;;
  startProcessing.

(** [v.status === "completed" && v.hasSponsorBlock === false] *)
Definition withoutSponsorBlock (v : Video.t) : bool :=
  status_eqb (Video.status v) completed
  && match Video.hasSponsorBlock v with
     | Some false => true
     | _ => false
     end.

Definition checkAndUpdateSponsorBlockVideos (env : Env.t) : W unit :=
  config <- getConfig ;;
  allVideos <- onDb (getVideos None) ;;
  let videosWithoutSponsorBlock := List.filter withoutSponsorBlock allVideos in
  match videosWithoutSponsorBlock with
  | [] => ret tt
  | _ =>
      forEach videosWithoutSponsorBlock (fun video =>
        hasSponsorBlock <-
          checkSponsorBlockData env (Video.id video)
            (Config.sponsorBlockCategories config) ;;
        if hasSponsorBlock
        then catch (redownloadVideo env video) (fun _ => ret tt)
        else ret tt)
  end.

(** ** The event loop

    One event is one piece of work that the process runs without being
    interrupted by another one: a request of the server or a run of the
    scheduler (taken as a whole), the time-out of the drain loop, and the
    events of a job. *)

Inductive event :=
  | CallSyncPlaylist (env : Env.t) (playlist : Playlist.t)
  | CallSyncAll (env : Env.t)
  | CallSweep (env : Env.t)
  | CallAddPlaylist (generatedId : str) (playlist : Playlist.t)
  | CallRemovePlaylist (id : str)
  | CallUpdatePlaylist (id : str) (updates : PlaylistUpdate.t)
  | TimerFired
  | MkdirDone (job : nat) (error : option str)
  | StdoutData (job : nat) (line : str)
  | ProcessClosed (env : Env.t) (job : nat) (code : option Z)
  | ProcessError (env : Env.t) (job : nat) (message : str).

Definition step (e : event) (w : World.t) : World.t :=
  match e with
  | CallSyncPlaylist env playlist => (syncPlaylist env playlist w).2
  | CallSyncAll env => (syncAllPlaylists env w).2
  | CallSweep env => (checkAndUpdateSponsorBlockVideos env w).2
  | CallAddPlaylist generatedId playlist => (onDb (addPlaylist generatedId playlist) w).2
  | CallRemovePlaylist id => (onDb (removePlaylist id) w).2
  | CallUpdatePlaylist id updates => (onDb (updatePlaylist id updates) w).2
  | TimerFired => timerFired w
  | MkdirDone j error => mkdirDone j error w
  | StdoutData j line => stdoutData j line w
  | ProcessClosed env j code => processClosed env j code w
  | ProcessError env j message => processError env j message w
  end.

Definition run (events : list event) (w : World.t) : World.t :=
  fold_left (fun w e => step e w) events w.

(** The process after [db.load()] and [configManager.load()], with no
    [database.json] on a disk that answers [diskError]. *)
Definition initialWorld (config : Config.t) (diskError : nat -> option str)
  : World.t :=
  World.Make (load (DatabaseManager.Make None None 0 diskError)).2
    (Some config) ∅ [] false [] None [].

(** ** Notions used in the statements *)

(** *** Strings *)

(** White space occurs only as single spaces; [afterSpace] tells that the
    character before is a space. *)
Fixpoint singleSpaced (afterSpace : bool) (s : str) : bool :=
  match s with
  | [] => true
  | c :: t =>
      if isSpace c then negb afterSpace && (c =? 32) && singleSpaced true t
      else singleSpaced false t
  end.

Definition noLeadingSpace (s : str) : Prop :=
  match s with
  | c :: _ => isSpace c = false
  | [] => True
  end.

Definition noTrailingSpace (s : str) : Prop :=
  forall c, last s = Some c -> isSpace c = false.

(** None of the characters that [sanitizeFilename] replaces. *)
Definition validChars (s : str) : Prop :=
  Forall (fun c => isInvalidChar c = false) s.

(** *** Computations *)

(** A relation between the state before and the state after that every
    run of a computation satisfies, whatever its outcome. *)
Definition keeps {S A} (R : relation S) (m : M S A) : Prop :=
  forall s, R s (m s).2.

(** A computation that never waits for ever. *)
Definition settles {S A} (m : M S A) : Prop :=
  forall s, (m s).1 <> Pending.

(** *** The store *)

(** The records of the store in memory. *)
Definition recordsOf (m : DatabaseManager.t) : list Video.t :=
  match DatabaseManager.db m with
  | Some d => Database.videos d
  | None => []
  end.

Definition videosOf (w : World.t) : list Video.t := recordsOf (World.database w).


Definition lastCheckedOf (w : World.t) : list (option str) :=
  match DatabaseManager.db (World.database w) with
  | Some d => List.map Playlist.lastChecked (Database.playlists d)
  | None => []
  end.

(** A relation on the store, as a relation on the process. *)
Definition onDatabase (R : relation DatabaseManager.t) : relation World.t :=
  fun w w' => R (World.database w) (World.database w').

(** A computation of the downloader that does not touch the store. *)
Definition sameDatabase {A} (m : W A) : Prop :=
  forall w, World.database (m w).2 = World.database w.

(** What the methods of the store that do not add a record have in
    common with respect to a relation on the store. *)
Class StoreInvariant (R : relation DatabaseManager.t) := {
  store_preorder :: PreOrder R;
  keeps_getDatabase : keeps R getDatabase;
  keeps_addPlaylist g p : keeps R (addPlaylist g p);
  keeps_removePlaylist id : keeps R (removePlaylist id);
  keeps_updatePlaylist id u : keeps R (updatePlaylist id u);
  keeps_deleteVideo id : keeps R (deleteVideo id) }.

(** No call of [save] fails. *)
Definition neverFails (m : DatabaseManager.t) : Prop :=
  forall n, DatabaseManager.diskError m n = None.

(** Records are only removed. *)
Definition onlyRemoves : relation DatabaseManager.t :=
  fun m m' => recordsOf m' `sublist_of` recordsOf m.

(** On a disk that never fails the file follows the object in memory. *)
Definition staysSaved : relation DatabaseManager.t :=
  fun m m' =>
    neverFails m /\ DatabaseManager.file m = DatabaseManager.db m ->
    neverFails m' /\ DatabaseManager.file m' = DatabaseManager.db m'.

(** The items of [ids] keep the answer of [isVideoDownloaded]. *)
Definition sameCompleted (ids : list str) : relation DatabaseManager.t :=
  fun m m' =>
    forall id, id ∈ ids ->
      existsb (isCompletedFor id) (recordsOf m')
      = existsb (isCompletedFor id) (recordsOf m).

(** *** Completed records *)







(** *** Reconciliation and the sweep *)

(** The configuration is loaded, no write fails, and the store is loaded
    and holds [playlists]. *)
Definition healthy (config : Config.t) (playlists : list Playlist.t) (w : World.t)
  : Prop :=
  World.configManager w = Some config
  /\ neverFails (World.database w)
  /\ exists d, DatabaseManager.db (World.database w) = Some d
       /\ Database.playlists d = playlists.

(** The test of [find] in [updatePlaylist]. *)
Definition hasId (id : str) (p : Playlist.t) : bool := str_eqb (Playlist.id p) id.

(** The test of the filter of [syncPlaylist], in the state [w]. *)
Definition notDownloaded (w : World.t) (video : VideoInfo.t) : bool :=
  negb (existsb (isCompletedFor (VideoInfo.id video)) (videosOf w)).

Definition sameProbed : relation World.t :=
  fun w w' => World.probed w' = World.probed w.

(** The request of the probe for [v] gets an answer. *)
Definition probeSettles (env : Env.t) (config : Config.t) (v : Video.t) : Prop :=
  Https.checkSponsorBlockData (Env.JSON_parse env)
    (Env.network env (Video.id v) (Config.sponsorBlockCategories config)) <> Pending.

(** *** The store, the jobs and the process *)

(** [{ ...video, downloadedAt: now }] *)
Definition withDownloadedAt (now : str) (video : Video.t) : Video.t :=
  Video.Make (Video.id video) (Video.playlistId video) (Video.title video)
    now (Video.filepath video) (Video.status video) (Video.error video)
    (Video.hasSponsorBlock video).

(** The playlists of the store in memory. *)
Definition playlistsOf (m : DatabaseManager.t) : list Playlist.t :=
  match DatabaseManager.db m with
  | Some d => Database.playlists d
  | None => []
  end.

Definition notLoaded : str := js "Database not loaded. Call load() first.".

(** The job that [downloadVideo] creates for [video] under [config]. *)
Definition newJob (config : Config.t) (video : QueueItem.t) : Job.t :=
  Job.Make video config (sanitizeFilename (QueueItem.title video))
    (pathJoin (Config.downloadPath config) (QueueItem.id video)) []
    (DownloadProgress.Make (QueueItem.id video) (QueueItem.title video)
       (Num 0) downloading None)
    AwaitMkdir.

(** A computation that never throws. *)
Definition neverThrows {S A} (m : M S A) : Prop :=
  forall s message, (m s).1 <> Throw message.

(** The store stays loaded. *)
Definition staysLoaded : relation DatabaseManager.t :=
  fun m m' => is_Some (DatabaseManager.db m) -> is_Some (DatabaseManager.db m').

(** A property of the process that a computation hands on. *)
Definition preserves (I : World.t -> Prop) : relation World.t :=
  fun w w' => I w -> I w'.

(** A property of the process that does not depend on the store, the
    pending queue or the log of the probe, and that the drain loop keeps. *)
Class EngineInvariant (I : World.t -> Prop) := {
  inv_database x w : I w -> I (setDatabase x w);
  inv_queue x w : I w -> I (setDownloadQueue x w);
  inv_probed x w : I w -> I (setProbed x w);
  inv_processQueue w : I w -> I (processQueue w) }.

(** Every entry of [activeDownloads] refers to a job of that item whose
    process runs. *)
Definition activeAreRunning (w : World.t) : Prop :=
  forall id j, World.activeDownloads w !! id = Some j ->
    exists job, World.jobs w !! j = Some job
      /\ QueueItem.id (Job.video job) = id /\ Job.phase job = Running.

(** No call of [downloadVideo] was made, under a ceiling of 0 or less. *)
Definition nothingStarted (config : Config.t) (w : World.t) : Prop :=
  (Config.maxConcurrentDownloads config <= 0)%Z
  /\ World.configManager w = Some config
  /\ World.jobs w = []
  /\ World.activeDownloads w = ∅
  /\ (World.drainTimer w = None \/ World.drainTimer w = Some config).

(** A record of [playlist] whose item the listing no longer has. *)
Definition unlisted (playlist : Playlist.t) (info : PlaylistInfo.t) (v : Video.t)
  : bool :=
  str_eqb (Video.playlistId v) (Playlist.id playlist)
  && negb (bool_decide (Video.id v ∈ List.map VideoInfo.id (PlaylistInfo.entries info))).

(** The records are the same. *)
Definition sameRecords : relation DatabaseManager.t :=
  fun m m' => recordsOf m' = recordsOf m.

(** ** Sample data *)

Definition sampleConfig (ceiling : Z) : Config.t :=
  Config.Make (js "./downloads") 6 36660 (js "best") ceiling [js "sponsor"].

Definition samplePlaylist : Playlist.t :=
  Playlist.Make (js "p1") (js "https://www.youtube.com/playlist?list=PL1")
    (js "Talks") None true.

Definition sampleEntry (id : string) : RawEntry.t :=
  RawEntry.Make (js id) (Some (js id)) None.

Definition sampleListing (ids : list string) : RawPlaylist.t :=
  RawPlaylist.Make (js "PL1") (Some (js "Talks")) (Some (List.map sampleEntry ids)).

(** A record of playlist [p1]. *)
Definition sampleVideo (id : string) (s : VideoStatus) (flag : option bool) : Video.t :=
  Video.Make (js id) (js "p1") (js id) (js "2025-01-15T10:30:00.000Z")
    (js "./downloads/" ++ js id ++ js "/" ++ js id ++ js ".mp4") s None flag.

(** A [JSON.parse] that knows one text. *)
Definition parseOnly (text : string) (value : json) (s : str) : option json :=
  if bool_decide (s = js text) then Some value else None.

(** An environment in which the playlist lists [ids], every folder removal
    fails, no file is found and the SponsorBlock service answers
    [response]. *)
Definition sampleEnv (ids : list string) (response : list Https.event) : Env.t :=
  Env.Make (js "2025-01-15T10:30:00.000Z")
    (fun _ => Ok (sampleListing ids))
    (fun _ => Some (js "EACCES: permission denied"))
    (fun _ => false)
    (fun _ _ => Https.GetEmits response)
    (parseOnly "[1]" (JArray [JNumber 1])).

Definition noSegments : list Https.event := [Https.Response 404].

Definition someSegments : list Https.event :=
  [Https.Response 200; Https.Data (js "[1]"); Https.BodyEnd].

(** A disk that never fails, and a disk that fails at the [k]-th call of
    [save]. *)
Definition reliable : nat -> option str := fun _ => None.

Definition failsAt (k : nat) : nat -> option str :=
  fun n => if Nat.eqb n k then Some (js "ENOSPC: no space left on device") else None.

(** The process after start-up and the addition of [samplePlaylist]. *)
Definition sampleWorld (ceiling : Z) (diskError : nat -> option str) : World.t :=
  step (CallAddPlaylist (js "p1") samplePlaylist)
    (initialWorld (sampleConfig ceiling) diskError).

(** A process whose store holds the playlist and the given records. *)
Definition worldWith (videos : list Video.t) (diskError : nat -> option str)
  : World.t :=
  World.Make
    (DatabaseManager.Make (Some (Database.Make [samplePlaylist] videos))
       (Some (Database.Make [samplePlaylist] videos)) 0 diskError)
    (Some (sampleConfig 2)) ∅ [] false [] None [].

(** ** Properties *)

(** *** Strings *)

Lemma replaceInvalid_valid s : validChars (replaceInvalid s).
Proof.
  induction s as [|c s IH]; constructor; [|exact IH].
  destruct (isInvalidChar c) eqn:E; [reflexivity | exact E].
Qed.

Lemma replaceInvalid_id s : validChars s -> replaceInvalid s = s.
Proof.
  induction 1 as [|c s Hc _ IH]; simpl; [reflexivity|].
  rewrite Hc. f_equal. exact IH.
Qed.

Lemma space_valid c : isSpace c = true -> isInvalidChar c = false.
Proof.
  unfold isSpace, isInvalidChar. intros H.
  repeat match goal with
         | |- context [?a =? ?b] => destruct (N.eqb_spec a b); subst; simpl in *; try discriminate
         end; try reflexivity.
Qed.

Lemma collapseSpaces_valid b s : validChars s -> validChars (collapseSpaces b s).
Proof.
  intros H. revert b. induction H as [|c s Hc _ IH]; intros b; simpl; [constructor|].
  destruct (isSpace c); [destruct b|]; try apply IH.
  - constructor; [reflexivity | apply IH].
  - constructor; [exact Hc | apply IH].
Qed.

Lemma trimStart_suffix s : trimStart s `suffix_of` s.
Proof.
  induction s as [|c s IH]; simpl; [reflexivity|].
  destruct (isSpace c); [|reflexivity].
  by apply suffix_cons_r.
Qed.

Lemma trimEnd_prefix s : trimEnd s `prefix_of` s.
Proof.
  induction s as [|c s IH]; simpl; [reflexivity|].
  destruct (trimEnd s) as [|d t] eqn:E.
  - destruct (isSpace c); [apply prefix_nil | apply prefix_cons, prefix_nil].
  - by apply prefix_cons.
Qed.

Lemma trim_valid s : validChars s -> validChars (trim s).
Proof.
  unfold validChars, trim. intros H.
  destruct (trimStart_suffix (trimEnd s)) as [k1 E1].
  destruct (trimEnd_prefix s) as [k2 E2].
  rewrite E2, E1 in H. rewrite !Forall_app in H. tauto.
Qed.

Lemma trimStart_noLeading s : noLeadingSpace (trimStart s).
Proof.
  induction s as [|c s IH]; simpl; [exact I|].
  destruct (isSpace c) eqn:E; [exact IH | exact E].
Qed.

Lemma take_noLeading n s : noLeadingSpace s -> noLeadingSpace (take n s).
Proof. destruct s, n; simpl; auto. Qed.

Lemma trimEnd_idem s : trimEnd (trimEnd s) = trimEnd s.
Proof.
  induction s as [|c s IH]; simpl; [reflexivity|].
  destruct (trimEnd s) as [|d t] eqn:E.
  - destruct (isSpace c) eqn:Ec; simpl; [reflexivity | by rewrite Ec].
  - simpl in IH |- *. rewrite IH. reflexivity.
Qed.

Lemma trimEnd_fixed_tail c s : trimEnd (c :: s) = c :: s -> trimEnd s = s.
Proof.
  simpl. destruct (trimEnd s) as [|d t] eqn:E.
  - destruct (isSpace c); intros H; by simplify_eq.
  - intros H; by simplify_eq.
Qed.

Lemma trimEnd_trimStart s : trimEnd s = s -> trimEnd (trimStart s) = trimStart s.
Proof.
  induction s as [|c s IH]; intros H; [reflexivity|].
  simpl trimStart. destruct (isSpace c); [|exact H].
  apply IH. by eapply trimEnd_fixed_tail.
Qed.

Lemma trimStart_idem s : trimStart (trimStart s) = trimStart s.
Proof.
  induction s as [|c s IH]; simpl; [reflexivity|].
  destruct (isSpace c) eqn:E; [exact IH | by simpl; rewrite E].
Qed.

Lemma trimEnd_trim s : trimEnd (trim s) = trim s.
Proof. apply trimEnd_trimStart, trimEnd_idem. Qed.

Lemma trim_idem s : trim (trim s) = trim s.
Proof. unfold trim at 1. rewrite trimEnd_trim. apply trimStart_idem. Qed.

Lemma trimEnd_fixed_noTrailing s : trimEnd s = s -> noTrailingSpace s.
Proof.
  induction s as [|c s IH]; intros H d Hd; [discriminate|].
  destruct s as [|c' s'].
  - simpl in *. destruct (isSpace c) eqn:E; [discriminate | by simplify_eq].
  - apply IH; [by eapply trimEnd_fixed_tail | exact Hd].
Qed.

Lemma singleSpaced_weaken s : singleSpaced true s = true -> singleSpaced false s = true.
Proof. destruct s as [|c s]; simpl; [done|]. destruct (isSpace c); [discriminate | done]. Qed.

Lemma collapseSpaces_singleSpaced b s : singleSpaced b (collapseSpaces b s) = true.
Proof.
  revert b. induction s as [|c s IH]; intros b; simpl; [reflexivity|].
  destruct (isSpace c) eqn:E.
  - destruct b; [apply IH|]. simpl. rewrite IH. reflexivity.
  - simpl. rewrite E. apply IH.
Qed.

Lemma collapseSpaces_id b s : singleSpaced b s = true -> collapseSpaces b s = s.
Proof.
  revert b. induction s as [|c s IH]; intros b; simpl; [reflexivity|].
  destruct (isSpace c).
  - destruct b; simpl; [discriminate|].
    intros [Hc%N.eqb_eq Hs]%andb_prop. subst c. by rewrite IH.
  - intros Hs. by rewrite IH.
Qed.

Lemma trimStart_singleSpaced b s :
  singleSpaced b s = true -> singleSpaced false (trimStart s) = true.
Proof.
  revert b. induction s as [|c s IH]; intros b; simpl; [reflexivity|].
  destruct (isSpace c) eqn:E.
  - intros [_ Hs]%andb_prop. by eapply IH.
  - intros Hs. simpl. by rewrite E.
Qed.

Lemma trimEnd_singleSpaced b s :
  singleSpaced b s = true -> singleSpaced b (trimEnd s) = true.
Proof.
  revert b. induction s as [|c s IH]; intros b; simpl; [reflexivity|].
  destruct (isSpace c) eqn:E.
  - intros [Hc Hs]%andb_prop. apply IH in Hs.
    destruct (trimEnd s) as [|d t]; [reflexivity|].
    simpl in *. rewrite E, Hc. exact Hs.
  - intros Hs. apply IH in Hs.
    destruct (trimEnd s) as [|d t]; simpl in *; by rewrite E.
Qed.

Lemma sanitize_fixed t :
  validChars t -> singleSpaced false t = true -> trim t = t ->
  (length t <= 200)%nat -> sanitizeFilename t = t.
Proof.
  intros Hv Hs Ht Hl. unfold sanitizeFilename, substring0.
  rewrite (replaceInvalid_id _ Hv), (collapseSpaces_id _ _ Hs), Ht.
  by apply take_ge.
Qed.

Lemma sanitizeFilename_valid s : validChars (sanitizeFilename s).
Proof.
  unfold sanitizeFilename, substring0.
  apply Forall_take, trim_valid, collapseSpaces_valid, replaceInvalid_valid.
Qed.

(** C9 (amended).  For every input string [sanitizeFilename] returns a
    string of at most 200 code units that holds none of the nine
    characters it replaces and does not begin with white space.  When the
    string before the final [substring(0, 200)] has at most 200 code units
    (nothing is cut), the result does not end with white space either and
    [sanitizeFilename] maps it to itself.  [substring] is applied after
    [trim], so a cut may leave a space at the end. *)
Theorem sanitizeFilename_bounded_clean_and_stable (filename : str) :
  (length (sanitizeFilename filename) <= 200)%nat
  /\ validChars (sanitizeFilename filename)
  /\ noLeadingSpace (sanitizeFilename filename)
  /\ ((length (trim (collapseSpaces false (replaceInvalid filename))) <= 200)%nat ->
      noTrailingSpace (sanitizeFilename filename)
      /\ sanitizeFilename (sanitizeFilename filename) = sanitizeFilename filename).
Proof.
  split; [|split; [|split]].
  - unfold sanitizeFilename, substring0. rewrite length_take. lia.
  - apply sanitizeFilename_valid.
  - apply take_noLeading, trimStart_noLeading.
  - intros Hl.
    assert (E : sanitizeFilename filename
                = trim (collapseSpaces false (replaceInvalid filename)))
      by (by apply take_ge).
    rewrite E. split.
    + apply trimEnd_fixed_noTrailing, trimEnd_trim.
    + apply sanitize_fixed; [| |apply trim_idem|exact Hl].
      * apply trim_valid, collapseSpaces_valid, replaceInvalid_valid.
      * eapply trimStart_singleSpaced, trimEnd_singleSpaced,
          collapseSpaces_singleSpaced.
Qed.

(** C9, witness: a title that is not cut. *)
Lemma sanitizeFilename_stable_witness :
  noTrailingSpace (sanitizeFilename (js "  a<b>  c:d  "))
  /\ sanitizeFilename (sanitizeFilename (js "  a<b>  c:d  "))
     = sanitizeFilename (js "  a<b>  c:d  ").
Proof.
  apply (proj2 (proj2 (proj2
    (sanitizeFilename_bounded_clean_and_stable (js "  a<b>  c:d  "))))).
  vm_compute. lia.
Defined.

(** C9, counterexample: 199 letters, a space and a letter.  The cut at
    200 code units keeps the space, so the result ends with white space
    and sanitizing it again removes that space. *)
Lemma sanitizeFilename_cut_leaves_space :
  let out := sanitizeFilename (replicate 199 97 ++ js " b") in
  last out = Some 32 /\ isSpace 32 = true /\ sanitizeFilename out <> out.
Proof.
  split; [vm_compute; reflexivity|]. split; [reflexivity|].
  intros H. apply (f_equal length) in H. vm_compute in H. discriminate.
Qed.

(** *** The progress parser *)

Example parseProgress_sample :
  parseProgress (js "[download]  45.5% of 123.45MiB at 1.23MiB/s ETA 00:12")
  = Some (Num (91 # 2)).
Proof. vm_compute. reflexivity. Qed.

Lemma matchHere_lit p rest s g :
  matchHere (lit p ++ rest) s = Some g -> startsWith (js p) s = true.
Proof.
  revert s g. induction p as [|a p IH]; intros s g; [reflexivity|].
  change (lit (String a p) ++ rest) with (Atom (isChar a) One false :: (lit p ++ rest)).
  change (js (String a p)) with (N_of_ascii a :: js p).
  simpl. destruct s as [|c s]; [discriminate|].
  unfold isChar at 1. unfold keep. simpl.
  rewrite (N.eqb_sym c). destruct (N_of_ascii a =? c); [|discriminate].
  intros H. by apply IH in H.
Qed.

Lemma regexMatch_lit p rest s g :
  regexMatch (lit p ++ rest) s = Some g -> includes (js p) s = true.
Proof.
  induction s as [|c s IH]; simpl.
  - destruct (matchHere (lit p ++ rest) []) eqn:E; [|discriminate].
    intros _. apply matchHere_lit in E. by rewrite E.
  - destruct (matchHere (lit p ++ rest) (c :: s)) eqn:E.
    + intros _. apply matchHere_lit in E. by rewrite E.
    + intros H. rewrite (IH H). apply orb_true_r.
Qed.

Lemma no_download_no_match line :
  includes (js "[download]") line = false ->
  regexMatch progressRegex line = None /\ regexMatch destinationRegex line = None.
Proof.
  intros H. split.
  - destruct (regexMatch progressRegex line) eqn:E; [|reflexivity].
    apply regexMatch_lit in E. congruence.
  - destruct (regexMatch destinationRegex line) eqn:E; [|reflexivity].
    change destinationRegex
      with (lit "[download]" ++ (lit " Destination: " ++ [Atom isDot Plus true])) in E.
    apply regexMatch_lit in E. congruence.
Qed.

(** C4 (amended).  [parseProgress] on the sample progress line yields
    45.5.  The destination is read from a line of the form
    [[download] Destination: <path>]: with that prefix the sample path is
    extracted, and the line [Destination: /x/y/z.mp4] without it yields no
    destination.  A line that does not contain [[download]] matches
    neither pattern: [parseProgress] yields [null] and there is no
    destination; when it holds neither [100%] nor the phrase
    [has already been downloaded], the listener of [stdout] leaves the job
    as it is.  The functions are total: no line makes them throw. *)
Theorem progress_parser_signals :
  (exists q, parseProgress (js "[download]  45.5% of 123.45MiB at 1.23MiB/s ETA 00:12")
             = Some (Num q) /\ (q == 45.5)%Q)
  /\ matchDestination (js "[download] Destination: /x/y/z.mp4") = Some (js "/x/y/z.mp4")
  /\ matchDestination (js "Destination: /x/y/z.mp4") = None
  /\ (forall line,
        includes (js "[download]") line = false ->
        parseProgress line = None /\ matchDestination line = None)
  /\ (forall line job,
        includes (js "[download]") line = false ->
        includes (js "100%") line = false ->
        includes (js "has already been downloaded") line = false ->
        onStdout line job = job).
Proof.
  split; [|split; [|split; [|split]]].
  - eexists. split; [vm_compute; reflexivity | reflexivity].
  - vm_compute. reflexivity.
  - vm_compute. reflexivity.
  - intros line [H1 H2]%no_download_no_match.
    unfold parseProgress, matchDestination. by rewrite H1, H2.
  - intros line job [H1 H2]%no_download_no_match H3 H4.
    unfold onStdout, parseProgress, matchDestination. rewrite H1, H2, H3, H4.
    by destruct job as [? ? ? ? ? [] ?].
Qed.

(** C4, witness: a line of another kind. *)
Lemma progress_parser_unrelated_line_witness :
  (parseProgress (js "[info] Writing video thumbnail") = None
   /\ matchDestination (js "[info] Writing video thumbnail") = None)
  /\ forall job, onStdout (js "[info] Writing video thumbnail") job = job.
Proof.
  split.
  - apply (proj1 (proj2 (proj2 (proj2 progress_parser_signals)))).
    vm_compute. reflexivity.
  - intros job.
    apply (proj2 (proj2 (proj2 (proj2 progress_parser_signals))));
      vm_compute; reflexivity.
Defined.

(** C4, counterexample: the line of the claim has no [[download]] prefix
    and the regular expression of the listener does not match it. *)
Lemma destination_needs_download_prefix :
  matchDestination (js "Destination: /x/y/z.mp4") <> Some (js "/x/y/z.mp4").
Proof. vm_compute. discriminate. Qed.

(** *** Computations *)

Ltac unfold_monad :=
  unfold bind, ret, throw, catch, gets, modify, zoom in *.

Section Keeps.
Context {S : Type} (R : relation S) `{!PreOrder R}.

Lemma keeps_ret {A} (a : A) : keeps R (ret a).
Proof. intros s. reflexivity. Qed.

Lemma keeps_throw {A} e : keeps R (@throw S A e).
Proof. intros s. reflexivity. Qed.

Lemma keeps_bind {A B} (m : M S A) (k : A -> M S B) :
  keeps R m -> (forall a, keeps R (k a)) -> keeps R (bind m k).
Proof.
  intros Hm Hk s. unfold bind. specialize (Hm s).
  destruct (m s) as [[a| |] s']; simpl in *; [|done..].
  etransitivity; [exact Hm | apply Hk].
Qed.

Lemma keeps_catch {A} (m : M S A) h :
  keeps R m -> (forall e, keeps R (h e)) -> keeps R (catch m h).
Proof.
  intros Hm Hh s. unfold catch. specialize (Hm s).
  destruct (m s) as [[a|e|] s']; simpl in *; [done| |done].
  etransitivity; [exact Hm | apply Hh].
Qed.

Lemma keeps_forEach {A} (l : list A) (f : A -> M S unit) :
  (forall x, x ∈ l -> keeps R (f x)) -> keeps R (forEach l f).
Proof.
  induction l as [|x l IH]; intros H; simpl; [apply keeps_ret|].
  apply keeps_bind; [apply H; left | intros _; apply IH].
  intros y Hy. apply H. by right.
Qed.

Lemma keeps_filterM {A} (f : A -> M S bool) (l : list A) :
  (forall x, keeps R (f x)) -> keeps R (filterM f l).
Proof.
  intros H. induction l as [|x l IH]; simpl; [apply keeps_ret|].
  apply keeps_bind; [apply H|]. intros b.
  apply keeps_bind; [apply IH|]. intros r. apply keeps_ret.
Qed.

Lemma keeps_if {A} (b : bool) (m1 m2 : M S A) :
  keeps R m1 -> keeps R m2 -> keeps R (if b then m1 else m2).
Proof. by destruct b. Qed.
End Keeps.

Section Settles.
Context {S : Type}.

Lemma settles_ret {A} (a : A) : settles (@ret S A a).
Proof. intros s. discriminate. Qed.

Lemma settles_throw {A} e : settles (@throw S A e).
Proof. intros s. discriminate. Qed.

Lemma settles_modify f : settles (@modify S f).
Proof. intros s. discriminate. Qed.

Lemma settles_bind {A B} (m : M S A) (k : A -> M S B) :
  settles m -> (forall a, settles (k a)) -> settles (bind m k).
Proof.
  intros Hm Hk s. unfold bind. specialize (Hm s).
  destruct (m s) as [[a|e|] s']; simpl in *; [apply Hk|discriminate|done].
Qed.

Lemma settles_catch {A} (m : M S A) h :
  settles m -> (forall e, settles (h e)) -> settles (catch m h).
Proof.
  intros Hm Hh s. unfold catch. specialize (Hm s).
  destruct (m s) as [[a|e|] s']; simpl in *; [discriminate|apply Hh|done].
Qed.

Lemma settles_zoom {T A} (get : S -> T) set (m : M T A) :
  settles m -> settles (zoom get set m).
Proof.
  intros Hm s. unfold zoom. specialize (Hm (get s)).
  by destruct (m (get s)).
Qed.
End Settles.

Lemma keeps_onDb (R : relation DatabaseManager.t) {A} (m : DB A) :
  keeps R m -> keeps (onDatabase R) (onDb m).
Proof.
  intros H w. unfold onDatabase, onDb, zoom. specialize (H (World.database w)).
  by destruct (m (World.database w)).
Qed.

Lemma keeps_sameDatabase (R : relation DatabaseManager.t) `{!Reflexive R} {A}
    (m : W A) :
  sameDatabase m -> keeps (onDatabase R) m.
Proof. intros H w. unfold onDatabase. rewrite H. reflexivity. Qed.

#[export] Instance onDatabase_preorder R `{!PreOrder R} : PreOrder (onDatabase R).
Proof.
  split.
  - intros w. unfold onDatabase. reflexivity.
  - intros a b c. unfold onDatabase. apply transitivity.
Qed.

(** The queue and the jobs do not touch the store. *)
Lemma downloadVideoStart_database v w :
  World.database (downloadVideoStart v w) = World.database w.
Proof. unfold downloadVideoStart. by destruct (World.configManager w). Qed.

Lemma drainLoop_database c q w :
  World.database (drainLoop c q w) = World.database w.
Proof.
  revert w. induction q as [|v q IH]; intros w; simpl; [reflexivity|].
  case_match; [reflexivity|]. rewrite IH, downloadVideoStart_database. reflexivity.
Qed.

Lemma processQueue_database w : World.database (processQueue w) = World.database w.
Proof.
  unfold processQueue. destruct (World.isProcessingQueue w); [reflexivity|].
  simpl. destruct (World.configManager w); [|reflexivity].
  by rewrite drainLoop_database.
Qed.

Lemma timerFired_database w : World.database (timerFired w) = World.database w.
Proof.
  unfold timerFired. destruct (World.drainTimer w); [|reflexivity].
  by rewrite drainLoop_database.
Qed.

Lemma startProcessing_sameDatabase : sameDatabase startProcessing.
Proof.
  intros w. unfold startProcessing, modify. simpl.
  destruct (World.isProcessingQueue w); [reflexivity | apply processQueue_database].
Qed.

Lemma pushAll_sameDatabase items : sameDatabase (pushAll items).
Proof. intros w. reflexivity. Qed.

Lemma getConfig_sameDatabase : sameDatabase getConfig.
Proof. intros w. unfold getConfig. by destruct (World.configManager w). Qed.

Lemma fsRm_sameDatabase env folder : sameDatabase (fsRm env folder).
Proof. intros w. unfold fsRm. by destruct (Env.rmError env folder). Qed.

Lemma getPlaylistInfo_sameDatabase env u : sameDatabase (getPlaylistInfo env u).
Proof. intros w. unfold getPlaylistInfo. by destruct (Env.listing env u). Qed.

Lemma checkSponsorBlockData_sameDatabase env i c :
  sameDatabase (checkSponsorBlockData env i c).
Proof. intros w. reflexivity. Qed.

Section Store.
Context (R : relation DatabaseManager.t) `{!StoreInvariant R}.

Lemma keeps_getPlaylists : keeps R getPlaylists.
Proof.
  apply keeps_bind; [apply _|apply keeps_getDatabase|intros; apply keeps_ret; apply _].
Qed.

Lemma keeps_getVideos p : keeps R (getVideos p).
Proof.
  apply keeps_bind; [apply _|apply keeps_getDatabase|].
  intros d. destruct p as [[|c p]|]; apply keeps_ret; apply _.
Qed.

Lemma keeps_isVideoDownloaded i : keeps R (isVideoDownloaded i).
Proof.
  apply keeps_bind; [apply _|apply keeps_getDatabase|intros; apply keeps_ret; apply _].
Qed.
End Store.

Ltac keeps_step :=
  match goal with
  | |- keeps _ (bind _ _) => apply keeps_bind; [apply _ | | intros ?]
  | |- keeps _ (ret _) => apply keeps_ret; apply _
  | |- keeps _ (throw _) => apply keeps_throw; apply _
  | |- keeps _ (catch _ _) => apply keeps_catch; [apply _ | | intros ?]
  | |- keeps _ (if _ then _ else _) => apply keeps_if
  | |- keeps _ (forEach _ _) => apply keeps_forEach; [apply _ | intros ? _]
  | |- keeps _ (filterM _ _) => apply keeps_filterM; [apply _ | intros ?]
  | |- keeps (onDatabase _) (onDb _) => apply keeps_onDb
  | |- keeps (onDatabase _) getConfig =>
      apply keeps_sameDatabase; [apply _ | apply getConfig_sameDatabase]
  | |- keeps (onDatabase _) (fsRm _ _) =>
      apply keeps_sameDatabase; [apply _ | apply fsRm_sameDatabase]
  | |- keeps (onDatabase _) (getPlaylistInfo _ _) =>
      apply keeps_sameDatabase; [apply _ | apply getPlaylistInfo_sameDatabase]
  | |- keeps (onDatabase _) (pushAll _) =>
      apply keeps_sameDatabase; [apply _ | apply pushAll_sameDatabase]
  | |- keeps (onDatabase _) startProcessing =>
      apply keeps_sameDatabase; [apply _ | apply startProcessing_sameDatabase]
  | |- keeps (onDatabase _) (checkSponsorBlockData _ _ _) =>
      apply keeps_sameDatabase; [apply _ | apply checkSponsorBlockData_sameDatabase]
  | |- keeps _ (updatePlaylist _ _) => apply keeps_updatePlaylist
  | |- keeps _ (deleteVideo _) => apply keeps_deleteVideo
  | |- keeps _ (removePlaylist _) => apply keeps_removePlaylist
  | |- keeps _ (addPlaylist _ _) => apply keeps_addPlaylist
  | |- keeps _ (getVideos _) => apply keeps_getVideos; apply _
  | |- keeps _ getPlaylists => apply keeps_getPlaylists; apply _
  | |- keeps _ (isVideoDownloaded _) => apply keeps_isVideoDownloaded; apply _
  end.

Section Engine.
Context (R : relation DatabaseManager.t) `{!StoreInvariant R}.

Lemma keeps_syncPlaylist env playlist :
  keeps (onDatabase R) (syncPlaylist env playlist).
Proof. unfold syncPlaylist. repeat keeps_step. Qed.

Lemma keeps_syncAllPlaylists env : keeps (onDatabase R) (syncAllPlaylists env).
Proof. unfold syncAllPlaylists. repeat keeps_step. apply keeps_syncPlaylist. Qed.

Lemma keeps_redownloadVideo env video :
  keeps (onDatabase R) (redownloadVideo env video).
Proof. unfold redownloadVideo. repeat keeps_step. Qed.

Lemma keeps_sweep env :
  keeps (onDatabase R) (checkAndUpdateSponsorBlockVideos env).
Proof.
  unfold checkAndUpdateSponsorBlockVideos.
  repeat (keeps_step || case_match); apply keeps_redownloadVideo.
Qed.
End Engine.

(** *** Invariants of the store *)

Ltac unfold_db :=
  unfold addPlaylist, removePlaylist, updatePlaylist, getPlaylists, addVideo,
    getVideos, isVideoDownloaded, deleteVideo, getDatabase, setDb, save in *;
  unfold_monad.

Ltac db_cases :=
  repeat (simpl in *; simplify_eq; try case_match).

Lemma filter_sublist {A} (f : A -> bool) (l : list A) :
  List.filter f l `sublist_of` l.
Proof.
  induction l as [|x l IH]; simpl; [reflexivity|].
  destruct (f x); [by apply sublist_skip | by apply sublist_cons].
Qed.

Lemma filter_length_le {A} (f : A -> bool) (l : list A) :
  (length (List.filter f l) <= length l)%nat.
Proof. apply sublist_length, filter_sublist. Qed.

Lemma filter_all {A} (f : A -> bool) (l : list A) :
  (length (List.filter f l) <? length l)%nat = false -> List.filter f l = l.
Proof.
  intros H%Nat.ltb_ge. induction l as [|x l IH]; simpl in *; [reflexivity|].
  pose proof (filter_length_le f l).
  destruct (f x); simpl in *; [f_equal; apply IH; lia | lia].
Qed.

#[export] Instance onlyRemoves_preorder : PreOrder onlyRemoves.
Proof.
  split; [intros m; unfold onlyRemoves; reflexivity|].
  intros a b c; unfold onlyRemoves. intros H1 H2. by etransitivity.
Qed.

#[export] Instance staysSaved_preorder : PreOrder staysSaved.
Proof. split; [intros m H; exact H | intros a b c H1 H2 H; auto]. Qed.

#[export] Instance onlyRemoves_store : StoreInvariant onlyRemoves.
Proof.
  split; [apply _|..]; intros; intros [db file saves diskError];
    unfold onlyRemoves, recordsOf; unfold_db; db_cases;
    try reflexivity; try apply sublist_nil_l;
    try apply filter_sublist; apply sublist_delete.
Qed.

#[export] Instance staysSaved_store : StoreInvariant staysSaved.
Proof.
  split; [apply _|..]; intros; intros [db file saves diskError];
    unfold staysSaved, neverFails; unfold_db; db_cases;
    intros [Hd Hf]; simpl in *; simplify_eq; try (split; [assumption|reflexivity]);
    try congruence.
  all: try match goal with
       | Hx : ?f ?n = Some _, Hy : forall n, ?f n = None |- _ =>
           rewrite Hy in Hx; discriminate
       end.
  split; [assumption|]. rewrite filter_all by assumption.
  match goal with |- Some ?d = _ => by destruct d end.
Qed.

(** *** The records after one event *)


Lemma pathJoin_nonempty a b : pathJoin a b <> [].
Proof. unfold pathJoin. destruct a; discriminate. Qed.



(** *** Completed records *)





Lemma isCompletedFor_true id v :
  isCompletedFor id v = true <-> Video.id v = id /\ Video.status v = completed.
Proof.
  unfold isCompletedFor, str_eqb. rewrite andb_true_iff, bool_decide_eq_true.
  destruct (Video.status v); simpl; intuition congruence.
Qed.





(** *** The file follows the store *)

Lemma keeps_addVideo_staysSaved now v : keeps staysSaved (addVideo now v).
Proof.
  intros [db file saves diskError]. unfold staysSaved, neverFails.
  unfold_db. db_cases; intros [Hd Hf]; simpl in *; simplify_eq;
    try (split; [assumption|reflexivity]).
  all: match goal with
       | Hx : ?f ?n = Some _, Hy : forall n, ?f n = None |- _ =>
           rewrite Hy in Hx; discriminate
       end.
Qed.

Lemma keeps_onClose_staysSaved env j job code :
  keeps (onDatabase staysSaved) (onClose env j job code).
Proof.
  unfold onClose. destruct code as [[| |]|]; repeat keeps_step;
    try (apply keeps_sameDatabase; [apply _ | intros w; reflexivity]);
    apply keeps_addVideo_staysSaved.
Qed.

Lemma onDatabase_same R `{!Reflexive R} w w' :
  World.database w' = World.database w -> onDatabase R w w'.
Proof. unfold onDatabase. intros ->. reflexivity. Qed.

Lemma step_staysSaved e w : onDatabase staysSaved w (step e w).
Proof.
  destruct e; simpl.
  - apply keeps_syncPlaylist, _.
  - apply keeps_syncAllPlaylists, _.
  - apply keeps_sweep, _.
  - apply (keeps_onDb staysSaved), keeps_addPlaylist.
  - apply (keeps_onDb staysSaved), keeps_removePlaylist.
  - apply (keeps_onDb staysSaved), keeps_updatePlaylist.
  - apply onDatabase_same, timerFired_database; apply _.
  - apply onDatabase_same; [apply _|]. unfold mkdirDone. by repeat case_match.
  - apply onDatabase_same; [apply _|]. unfold stdoutData. by repeat case_match.
  - unfold processClosed. repeat case_match; try reflexivity.
    match goal with |- context [onClose ?a ?b ?c ?d ?x] =>
      apply (keeps_onClose_staysSaved a b c d x) end.
  - unfold processError. repeat case_match; try reflexivity.
    match goal with |- onDatabase _ _ (?m ?x).2 =>
      assert (keeps (onDatabase staysSaved) m) as Hk; [|apply (Hk x)] end.
    repeat keeps_step; [apply keeps_sameDatabase; [apply _ | intros ?; reflexivity]|].
    apply keeps_addVideo_staysSaved.
Qed.

Lemma run_staysSaved events w : onDatabase staysSaved w (run events w).
Proof.
  revert w. induction events as [|e events IH]; intros w; [reflexivity|].
  etransitivity; [apply step_staysSaved | apply (IH (step e w))].
Qed.

Lemma initialWorld_database config diskError :
  World.database (initialWorld config diskError)
  = DatabaseManager.Make (Some DEFAULT_DATABASE)
      (match diskError 0%nat with Some _ => None | None => Some DEFAULT_DATABASE end)
      1 diskError.
Proof.
  unfold initialWorld, load. unfold_db. simpl. by destruct (diskError 0%nat).
Qed.


(** *** Deletion of a record *)

Lemma findIndex_none {A} (f : A -> bool) (l : list A) :
  Forall (fun x => f x = false) l -> findIndex f l = None.
Proof.
  induction 1 as [|x l Hx _ IH]; simpl; [reflexivity|]. by rewrite Hx, IH.
Qed.

(** C10.  [deleteVideo] with an id for which the store holds no record
    returns [null] and leaves the [DatabaseManager] as it is: the records,
    the file and the number of calls of [save] are unchanged. *)
Theorem deleteVideo_unknown_id_is_noop
    (m : DatabaseManager.t) (d : Database.t) (videoId : str) :
  DatabaseManager.db m = Some d ->
  Forall (fun v => Video.id v <> videoId) (Database.videos d) ->
  deleteVideo videoId m = (Ok None, m).
Proof.
  intros Hdb Hno. unfold deleteVideo, bind, getDatabase. rewrite Hdb.
  rewrite findIndex_none; [reflexivity|].
  eapply Forall_impl; [exact Hno|]. intros v Hv. unfold str_eqb.
  by apply bool_decide_eq_false.
Qed.

(** C10, witness. *)
Lemma deleteVideo_unknown_id_witness :
  let m := DatabaseManager.Make
             (Some (Database.Make [] [sampleVideo "a" completed (Some true)]))
             (Some (Database.Make [] [sampleVideo "a" completed (Some true)]))
             3 (fun _ => None) in
  deleteVideo (js "b") m = (Ok None, m).
Proof.
  intros m.
  apply (deleteVideo_unknown_id_is_noop m
           (Database.Make [] [sampleVideo "a" completed (Some true)]) (js "b")).
  - reflexivity.
  - repeat constructor. vm_compute. discriminate.
Defined.

(** *** The probe *)

Lemma resolve_settled b st : Https.settled st <> None ->
  Https.resolve b st = st.
Proof. unfold Https.resolve. by destruct (Https.settled st). Qed.

Lemma handle_settled parse ev st b :
  Https.settled st = Some b -> Https.settled (Https.handle parse st ev) = Some b.
Proof.
  intros H. destruct ev; simpl; unfold Https.resolve; rewrite ?H;
    repeat case_match; simpl; try rewrite H; done.
Qed.

Lemma run_settled parse events st b :
  Https.settled st = Some b ->
  Https.settled (fold_left (Https.handle parse) events st) = Some b.
Proof.
  revert st. induction events as [|ev events IH]; intros st H; [exact H|].
  simpl. apply IH. by apply handle_settled.
Qed.

Lemma run_data parse chunks s d :
  fold_left (Https.handle parse) (List.map Https.Data chunks) (Https.State s true d)
  = Https.State s true (d ++ List.concat chunks).
Proof.
  revert d. induction chunks as [|c chunks IH]; intros d; simpl.
  - by rewrite app_nil_r.
  - rewrite IH. by rewrite <- app_assoc.
Qed.

Lemma probe_settled parse events b :
  Https.settled (fold_left (Https.handle parse) events (Https.State None false []))
  = Some b ->
  Https.checkSponsorBlockData parse (Https.GetEmits events) = Ok b.
Proof. unfold Https.checkSponsorBlockData. by intros ->. Qed.

(** C6 (amended).  The probe built on [https.get] never throws.  It
    resolves to [false] when the call of [https.get] throws, on a response
    with status 404, on a response with any status other than 200, on a
    body that [JSON.parse] rejects, on an [error] of the request, and on
    its [timeout] (before a response or while the body arrives).  It
    resolves to [true] on a response with status 200 whose body is a
    non-empty JSON array. *)
Theorem probe_never_throws_and_tells_absence (JSON_parse : str -> option json) :
  (forall o message, Https.checkSponsorBlockData JSON_parse o <> Throw message)
  /\ (forall message,
        Https.checkSponsorBlockData JSON_parse (Https.GetThrows message) = Ok false)
  /\ (forall rest,
        Https.checkSponsorBlockData JSON_parse
          (Https.GetEmits (Https.Response 404 :: rest)) = Ok false)
  /\ (forall statusCode rest, statusCode <> 200%Z ->
        Https.checkSponsorBlockData JSON_parse
          (Https.GetEmits (Https.Response statusCode :: rest)) = Ok false)
  /\ (forall chunks rest, JSON_parse (List.concat chunks) = None ->
        Https.checkSponsorBlockData JSON_parse
          (Https.GetEmits
             (Https.Response 200 :: List.map Https.Data chunks ++ Https.BodyEnd :: rest))
        = Ok false)
  /\ (forall message rest,
        Https.checkSponsorBlockData JSON_parse
          (Https.GetEmits (Https.RequestError message :: rest)) = Ok false)
  /\ (forall rest,
        Https.checkSponsorBlockData JSON_parse
          (Https.GetEmits (Https.RequestTimeout :: rest)) = Ok false)
  /\ (forall chunks rest,
        Https.checkSponsorBlockData JSON_parse
          (Https.GetEmits
             (Https.Response 200 :: List.map Https.Data chunks
                ++ Https.RequestTimeout :: rest))
        = Ok false)
  /\ (forall chunks parsed rest,
        JSON_parse (List.concat chunks) = Some parsed ->
        isNonEmptyArray parsed = true ->
        Https.checkSponsorBlockData JSON_parse
          (Https.GetEmits
             (Https.Response 200 :: List.map Https.Data chunks ++ Https.BodyEnd :: rest))
        = Ok true).
Proof.
  repeat apply conj.
  - intros [m|events] message; simpl; [discriminate|]. by case_match.
  - reflexivity.
  - intros rest. apply probe_settled. simpl. by apply run_settled.
  - intros sc rest Hsc. apply probe_settled. simpl.
    destruct (Z.eqb_spec sc 404); [by apply run_settled|].
    destruct (Z.eqb_spec sc 200); [done|]. by apply run_settled.
  - intros chunks rest Hp. apply probe_settled. simpl.
    rewrite fold_left_app, run_data. simpl. rewrite Hp. by apply run_settled.
  - intros message rest. apply probe_settled. simpl. by apply run_settled.
  - intros rest. apply probe_settled. simpl. by apply run_settled.
  - intros chunks rest. apply probe_settled. simpl.
    rewrite fold_left_app, run_data. simpl. by apply run_settled.
  - intros chunks parsed rest Hp Ha. apply probe_settled. simpl.
    rewrite fold_left_app, run_data. simpl. rewrite Hp.
    apply run_settled. unfold Https.resolve. simpl. by rewrite Ha.
Qed.

(** C6, witness: a status 503, a body that is not JSON, and a body that
    arrives in two chunks. *)
Lemma probe_witness :
  Https.checkSponsorBlockData (parseOnly "[1]" (JArray [JNumber 1]))
    (Https.GetEmits [Https.Response 503]) = Ok false
  /\ Https.checkSponsorBlockData (parseOnly "[1]" (JArray [JNumber 1]))
       (Https.GetEmits [Https.Response 200; Https.Data (js "<html>"); Https.BodyEnd])
     = Ok false
  /\ Https.checkSponsorBlockData (parseOnly "[1]" (JArray [JNumber 1]))
       (Https.GetEmits [Https.Response 200; Https.Data (js "["); Https.Data (js "1]");
                        Https.BodyEnd])
     = Ok true.
Proof.
  pose proof (probe_never_throws_and_tells_absence (parseOnly "[1]" (JArray [JNumber 1])))
    as (_ & _ & _ & H503 & Hbad & _ & _ & _ & Hgood).
  split; [|split].
  - apply (H503 503%Z []). lia.
  - apply (Hbad [js "<html>"] []). vm_compute. reflexivity.
  - apply (Hgood [js "["; js "1]"] (JArray [JNumber 1]) []);
      vm_compute; reflexivity.
Defined.

(** C6, counterexample: a response with status 201 whose body is the
    array [[1]] resolves to [false]. *)
Lemma probe_rejects_other_2xx :
  parseOnly "[1]" (JArray [JNumber 1]) (js "[1]") = Some (JArray [JNumber 1])
  /\ isNonEmptyArray (JArray [JNumber 1]) = true
  /\ Https.checkSponsorBlockData (parseOnly "[1]" (JArray [JNumber 1]))
       (Https.GetEmits [Https.Response 201; Https.Data (js "[1]"); Https.BodyEnd])
     = Ok false.
Proof. repeat split; vm_compute; reflexivity. Qed.

(** The version built on [fetch] accepts every status from 200 to 299. *)
Lemma fetch_probe (JSON_parse : str -> option json) :
  (forall o message, Fetch.checkSponsorBlockData JSON_parse o <> Throw message)
  /\ (forall o, Fetch.checkSponsorBlockData JSON_parse o <> Pending)
  /\ (forall message,
        Fetch.checkSponsorBlockData JSON_parse (Fetch.FetchRejects message) = Ok false)
  /\ (forall status body, Fetch.ok status = false ->
        Fetch.checkSponsorBlockData JSON_parse (Fetch.FetchResponse status body)
        = Ok false)
  /\ (forall status body, JSON_parse body = None ->
        Fetch.checkSponsorBlockData JSON_parse (Fetch.FetchResponse status body)
        = Ok false)
  /\ (forall status body parsed, Fetch.ok status = true ->
        JSON_parse body = Some parsed -> isNonEmptyArray parsed = true ->
        Fetch.checkSponsorBlockData JSON_parse (Fetch.FetchResponse status body)
        = Ok true).
Proof.
  repeat apply conj.
  - intros [m|s b] message; simpl; repeat case_match; discriminate.
  - intros [m|s b]; simpl; repeat case_match; discriminate.
  - reflexivity.
  - intros status body H. simpl. rewrite H. by case_match.
  - intros status body H. simpl. rewrite H. by repeat case_match.
  - intros status body parsed Hok Hp Ha. simpl. rewrite Hok, Hp, Ha.
    case_match; [|reflexivity]. unfold Fetch.ok in Hok. lia.
Qed.

Lemma bind_ok {S A B} (m : M S A) (k : A -> M S B) s a s' :
  m s = (Ok a, s') -> bind m k s = k a s'.
Proof. unfold bind. by intros ->. Qed.

Lemma bind_inv_ok {S A B} (m : M S A) (k : A -> M S B) s b s' :
  bind m k s = (Ok b, s') -> exists a s1, m s = (Ok a, s1) /\ k a s1 = (Ok b, s').
Proof.
  unfold bind. destruct (m s) as [[a|e|] s1]; [eauto|discriminate..].
Qed.

Lemma keeps_run {S A} (R : relation S) (m : M S A) s r s' :
  keeps R m -> m s = (r, s') -> R s s'.
Proof. intros H E. specialize (H s). by rewrite E in H. Qed.

(** *** Reconciliation on a store whose writes succeed *)

Lemma find_updateFirst {A} (f : A -> bool) (g : A -> A) l x :
  List.find f l = Some x -> f (g x) = true ->
  List.find f (updateFirst f g l) = Some (g x).
Proof.
  intros H Hg. induction l as [|y l IH]; simpl in *; [discriminate|].
  destruct (f y) eqn:E; simpl.
  - simplify_eq. by rewrite Hg.
  - rewrite E. by apply IH.
Qed.

Lemma find_hasId id l p : List.find (hasId id) l = Some p -> Playlist.id p = id.
Proof.
  intros H. apply find_some in H as [_ H]. unfold hasId, str_eqb in H.
  by apply bool_decide_eq_true in H.
Qed.

Lemma updatePlaylist_healthy config playlists w id u p :
  healthy config playlists w ->
  List.find (hasId id) playlists = Some p ->
  exists w', onDb (updatePlaylist id u) w = (Ok (Some (assign p u)), w')
    /\ healthy config (updateFirst (hasId id) (fun p => assign p u) playlists) w'.
Proof.
  destruct w as [[db file saves diskError] ? ? ? ? ? ? ?].
  intros (Hc & Hd & d & Hdb & Hp) Hf. unfold neverFails in Hd. simpl in *. subst.
  unfold onDb. unfold_db. simpl. fold (hasId id). rewrite Hf. simpl. rewrite Hd.
  eexists. split; [reflexivity|]. split; [reflexivity|]. split; [exact Hd|].
  simpl. eauto.
Qed.

Lemma getVideos_healthy config playlists w x :
  healthy config playlists w -> exists vs, onDb (getVideos x) w = (Ok vs, w).
Proof.
  destruct w as [[db file saves diskError] ? ? ? ? ? ? ?].
  intros (Hc & Hd & d & Hdb & Hp). simpl in *. subst.
  unfold onDb. unfold_db. simpl. destruct x as [[|c x]|]; eauto.
Qed.

Lemma deleteVideo_healthy config playlists w id :
  healthy config playlists w ->
  exists r w', onDb (deleteVideo id) w = (Ok r, w') /\ healthy config playlists w'.
Proof.
  destruct w as [[db file saves diskError] ? ? ? ? ? ? ?].
  intros (Hc & Hd & d & Hdb & Hp). unfold neverFails in Hd. simpl in *. subst.
  unfold onDb. unfold_db. simpl.
  repeat (case_match; simpl in *; simplify_eq);
    try match goal with
        | Hx : ?f ?n = Some _, Hy : forall n, ?f n = None |- _ =>
            rewrite Hy in Hx; discriminate
        end.
  all: do 2 eexists; split; [reflexivity|].
  all: split; [reflexivity|]; split; [exact Hd|]; simpl; eauto.
Qed.

Lemma purge_healthy env config playlists (l : list Video.t) w :
  healthy config playlists w ->
  exists w',
    forEach l (fun video =>
      config <- getConfig ;;
      let videoFolder := pathJoin (Config.downloadPath config) (Video.id video) in
      catch (fsRm env videoFolder) (fun _ => ret tt) ;;;
      onDb (deleteVideo (Video.id video)) ;;;
      ret tt) w = (Ok tt, w')
    /\ healthy config playlists w'.
Proof.
  revert w. induction l as [|v l IH]; intros w Hw; simpl; [by exists w|].
  destruct (deleteVideo_healthy _ _ _ (Video.id v) Hw) as (r & w1 & Hdel & Hw1).
  destruct (IH w1 Hw1) as (w' & Hrest & Hw').
  exists w'. split; [|exact Hw'].
  erewrite bind_ok; [exact Hrest|].
  assert (Hcfg : getConfig w = (Ok config, w)).
  { unfold getConfig. by rewrite (proj1 Hw). }
  rewrite (bind_ok _ _ _ _ _ Hcfg).
  assert (Hrm : catch (fsRm env (pathJoin (Config.downloadPath config) (Video.id v)))
                  (fun _ => ret tt) w = (Ok tt, w)).
  { unfold catch, fsRm. by destruct (Env.rmError env _). }
  rewrite (bind_ok _ _ _ _ _ Hrm), (bind_ok _ _ _ _ _ Hdel). reflexivity.
Qed.

Lemma filterM_notDownloaded entries w d :
  DatabaseManager.db (World.database w) = Some d ->
  filterM (fun video =>
             downloaded <- onDb (isVideoDownloaded (VideoInfo.id video)) ;;
             ret (negb downloaded)) entries w
  = (Ok (List.filter (notDownloaded w) entries), w).
Proof.
  intros Hd. induction entries as [|e entries IH]; simpl; [reflexivity|].
  assert (H1 : (downloaded <- onDb (isVideoDownloaded (VideoInfo.id e)) ;;
                ret (negb downloaded)) w = (Ok (notDownloaded w e), w)).
  { destruct w as [[db file saves diskError] ? ? ? ? ? ? ?]. simpl in Hd. subst.
    reflexivity. }
  rewrite (bind_ok _ _ _ _ _ H1), (bind_ok _ _ _ _ _ IH). reflexivity.
Qed.

(** C7 (amended).  When the listing is resolved, the configuration and
    the store are loaded, the store holds the playlist and no write of
    [database.json] fails during the run, [syncPlaylist] returns and the
    playlist has [lastChecked] set to the time of the run, whether the
    removals of the folders ([fs.rm]) succeed or fail.  (A write that
    fails makes [updatePlaylist] or [deleteVideo] throw, and the run ends
    before it reaches the update of [lastChecked].) *)
Theorem lastChecked_recorded_when_writes_succeed
    (env : Env.t) (playlist stored : Playlist.t) (w : World.t)
    (config : Config.t) (d : Database.t) (data : RawPlaylist.t) :
  Env.listing env (Playlist.url playlist) = Ok data ->
  World.configManager w = Some config ->
  neverFails (World.database w) ->
  DatabaseManager.db (World.database w) = Some d ->
  List.find (hasId (Playlist.id playlist)) (Database.playlists d) = Some stored ->
  exists n w' d' stored',
    syncPlaylist env playlist w = (Ok n, w')
    /\ DatabaseManager.db (World.database w') = Some d'
    /\ List.find (hasId (Playlist.id playlist)) (Database.playlists d') = Some stored'
    /\ Playlist.lastChecked stored' = Some (Env.now env).
Proof.
  intros Hl Hc Hn Hd Hf.
  assert (Hw : healthy config (Database.playlists d) w) by (split; eauto).
  unfold syncPlaylist.
  assert (H1 : exists info, getPlaylistInfo env (Playlist.url playlist) w = (Ok info, w)).
  { unfold getPlaylistInfo. rewrite Hl. eauto. }
  destruct H1 as [info H1]. rewrite (bind_ok _ _ _ _ _ H1).
  (* the title *)
  assert (H2 : exists w2 playlists2 stored2,
    (if str_eqb (PlaylistInfo.title info) (Playlist.title playlist) then ret tt
     else onDb (updatePlaylist (Playlist.id playlist)
                  (PlaylistUpdate.Make None None (Some (PlaylistInfo.title info))
                     None None)) ;;; ret tt) w = (Ok tt, w2)
    /\ healthy config playlists2 w2
    /\ List.find (hasId (Playlist.id playlist)) playlists2 = Some stored2).
  { destruct (str_eqb _ _); [by exists w, (Database.playlists d), stored|].
    destruct (updatePlaylist_healthy _ _ _ _
                (PlaylistUpdate.Make None None (Some (PlaylistInfo.title info)) None None)
                _ Hw Hf) as (w2 & E & Hw2).
    do 3 eexists. split; [by rewrite (bind_ok _ _ _ _ _ E)|]. split; [exact Hw2|].
    apply find_updateFirst; [exact Hf|].
    unfold hasId, str_eqb. apply bool_decide_eq_true. simpl. by eapply find_hasId. }
  destruct H2 as (w2 & playlists2 & stored2 & H2 & Hw2 & Hf2).
  rewrite (bind_ok _ _ _ _ _ H2).
  destruct (getVideos_healthy _ _ _ (Some (Playlist.id playlist)) Hw2) as (vs & H3).
  rewrite (bind_ok _ _ _ _ _ H3).
  match goal with |- context [forEach ?l _] =>
    destruct (purge_healthy env _ _ l _ Hw2) as (w4 & H4 & Hw4) end.
  rewrite (bind_ok _ _ _ _ _ H4).
  destruct Hw4 as (Hc4 & Hn4 & d4 & Hd4 & Hp4).
  rewrite (bind_ok _ _ _ _ _ (filterM_notDownloaded _ _ _ Hd4)).
  erewrite (bind_ok (pushAll _)); [|reflexivity].
  match goal with |- context [bind (onDb (updatePlaylist ?i ?u)) _ ?x] =>
    destruct (updatePlaylist_healthy config playlists2 x i u stored2) as (w7 & H7 & Hw7);
      [by split; eauto | exact Hf2 |] end.
  rewrite (bind_ok _ _ _ _ _ H7).
  destruct Hw7 as (Hc7 & Hn7 & d7 & Hd7 & Hp7).
  unfold startProcessing, bind, modify, ret.
  do 2 eexists. exists d7. eexists. split; [reflexivity|]. split.
  { destruct (World.isProcessingQueue w7); [exact Hd7|].
    by rewrite processQueue_database. }
  rewrite Hp7. split.
  - apply find_updateFirst; [exact Hf2|].
    unfold hasId, str_eqb. apply bool_decide_eq_true. simpl. by eapply find_hasId.
  - reflexivity.
Qed.

(** *** What reconciliation counts *)

#[export] Instance sameCompleted_preorder ids : PreOrder (sameCompleted ids).
Proof.
  split; [by intros m id _|].
  intros a b c H1 H2 id Hid. rewrite (H2 id Hid). by apply H1.
Qed.

Lemma existsb_delete {A} (f g : A -> bool) (l : list A) i :
  findIndex f l = Some i -> (forall x, f x = true -> g x = false) ->
  existsb g (delete i l) = existsb g l.
Proof.
  revert i. induction l as [|x l IH]; intros i; simpl; [discriminate|].
  destruct (f x) eqn:E.
  - intros [= <-] H. simpl. by rewrite (H x E).
  - destruct (findIndex f l) as [k|]; [|discriminate].
    intros [= <-] H. simpl. by rewrite (IH k).
Qed.

Lemma keeps_sameRecords (ids : list str) {A} (m : DB A) :
  (forall s, recordsOf (m s).2 = recordsOf s) -> keeps (sameCompleted ids) m.
Proof. intros H s id _. by rewrite H. Qed.

Lemma updatePlaylist_records id u s : recordsOf (updatePlaylist id u s).2 = recordsOf s.
Proof. destruct s. unfold recordsOf. unfold_db. by db_cases. Qed.

Lemma getVideos_records p s : recordsOf (getVideos p s).2 = recordsOf s.
Proof. destruct s. unfold recordsOf. unfold_db. by db_cases. Qed.

Lemma deleteVideo_sameCompleted ids id :
  id ∉ ids -> keeps (sameCompleted ids) (deleteVideo id).
Proof.
  intros Hid [db file saves diskError] id' Hid'.
  unfold recordsOf. unfold_db. db_cases; try reflexivity.
  all: eapply existsb_delete; [eassumption|].
  all: intros x Hx; unfold isCompletedFor, str_eqb in *.
  all: apply bool_decide_eq_true in Hx.
  all: rewrite bool_decide_eq_false_2; [reflexivity | congruence].
Qed.

Lemma bind_inv_ok_unit {S B} (m : M S unit) (k : unit -> M S B) s b s' :
  bind m k s = (Ok b, s') -> exists s1, m s = (Ok tt, s1) /\ k tt s1 = (Ok b, s').
Proof. intros (a & s1 & H1 & H2)%bind_inv_ok. destruct a. eauto. Qed.

Lemma filterM_notDownloaded_inv entries w l w' :
  filterM (fun video =>
             downloaded <- onDb (isVideoDownloaded (VideoInfo.id video)) ;;
             ret (negb downloaded)) entries w = (Ok l, w') ->
  w' = w /\ l = List.filter (notDownloaded w) entries.
Proof.
  revert l w'. induction entries as [|e entries IH]; intros l w' H; simpl in *.
  { unfold ret in H. by simplify_eq. }
  apply bind_inv_ok in H as (b & w1 & H1 & H).
  apply bind_inv_ok in H as (r & w2 & H2 & H).
  unfold ret in H. simplify_eq.
  assert (w1 = w /\ b = notDownloaded w e) as [-> ->].
  { clear -H1. destruct w as [[db file saves diskError] ? ? ? ? ? ? ?].
    revert H1. unfold notDownloaded, videosOf, recordsOf, onDb. unfold_db.
    db_cases; intros; by simplify_eq. }
  apply IH in H2 as [-> ->]. done.
Qed.

Lemma syncPlaylist_count env playlist w n w' :
  syncPlaylist env playlist w = (Ok n, w') ->
  exists info,
    getPlaylistInfo env (Playlist.url playlist) w = (Ok info, w)
    /\ n = Z.of_nat (length (List.filter (notDownloaded w) (PlaylistInfo.entries info)))
    /\ onDatabase
         (sameCompleted (List.map VideoInfo.id (PlaylistInfo.entries info))) w w'.
Proof.
  unfold syncPlaylist. intros H.
  apply bind_inv_ok in H as (info & w1 & H1 & H).
  assert (w1 = w) as ->.
  { unfold getPlaylistInfo in H1. destruct (Env.listing env _); by simplify_eq. }
  exists info. split; [exact H1|].
  set (ids := List.map VideoInfo.id (PlaylistInfo.entries info)) in *.
  pose (R := onDatabase (sameCompleted ids)).
  apply bind_inv_ok_unit in H as (w2 & H2 & H).
  assert (R w w2) as R2.
  { eapply keeps_run; [|exact H2]. unfold R. repeat keeps_step.
    apply keeps_sameRecords, updatePlaylist_records. }
  apply bind_inv_ok in H as (dbVideos & w3 & H3 & H).
  assert (R w2 w3) as R3.
  { eapply keeps_run; [|exact H3]. unfold R. repeat keeps_step.
    apply keeps_sameRecords, getVideos_records. }
  apply bind_inv_ok_unit in H as (w4 & H4 & H).
  assert (R w3 w4) as R4.
  { eapply keeps_run; [|exact H4]. unfold R.
    apply keeps_forEach; [apply _|]. intros v Hv.
    apply list_elem_of_In, filter_In in Hv as [_ Hv].
    apply negb_true_iff, bool_decide_eq_false in Hv.
    repeat keeps_step. apply deleteVideo_sameCompleted.
    intros Hin. apply Hv. apply elem_of_list_to_set. exact Hin. }
  apply bind_inv_ok in H as (newVideos & w5 & H5 & H).
  apply filterM_notDownloaded_inv in H5 as [-> ->].
  apply bind_inv_ok_unit in H as (w6 & H6 & H).
  assert (R w4 w6) as R6.
  { eapply keeps_run; [|exact H6]. unfold R. repeat keeps_step. }
  apply bind_inv_ok in H as (updated & w7 & H7 & H).
  assert (R w6 w7) as R7.
  { eapply keeps_run; [|exact H7]. unfold R. repeat keeps_step.
    apply keeps_sameRecords, updatePlaylist_records. }
  apply bind_inv_ok_unit in H as (w8 & H8 & H).
  assert (R w7 w8) as R8.
  { eapply keeps_run; [|exact H8]. unfold R. repeat keeps_step. }
  unfold ret in H. simplify_eq.
  assert (R w w4) as R04 by (do 2 (etransitivity; [eassumption|]); exact R4).
  split.
  - f_equal. f_equal. apply filter_ext_in. intros e He.
    unfold notDownloaded, videosOf. f_equal. apply R04.
    apply list_elem_of_In, in_map, He.
  - change (R w w').
    etransitivity; [exact R04|]. etransitivity; [exact R6|].
    etransitivity; [exact R7|exact R8].
Qed.


(** *** The sweep *)

#[export] Instance sameProbed_preorder : PreOrder sameProbed.
Proof. split; [done|]. intros a b c H1 H2. unfold sameProbed in *. congruence. Qed.

Lemma downloadVideoStart_probed v w :
  World.probed (downloadVideoStart v w) = World.probed w.
Proof. unfold downloadVideoStart. by destruct (World.configManager w). Qed.

Lemma drainLoop_probed c q w : World.probed (drainLoop c q w) = World.probed w.
Proof.
  revert w. induction q as [|v q IH]; intros w; simpl; [reflexivity|].
  case_match; [reflexivity|]. by rewrite IH, downloadVideoStart_probed.
Qed.

Lemma processQueue_probed w : World.probed (processQueue w) = World.probed w.
Proof.
  unfold processQueue. destruct (World.isProcessingQueue w); [reflexivity|].
  simpl. destruct (World.configManager w); [|reflexivity].
  by rewrite drainLoop_probed.
Qed.

Lemma keeps_onDb_sameProbed {A} (m : DB A) : keeps sameProbed (onDb m).
Proof. intros w. unfold sameProbed, onDb, zoom. by destruct (m _). Qed.

Lemma settles_deleteVideo id : settles (deleteVideo id).
Proof. intros [db file saves diskError]. unfold_db. db_cases; discriminate. Qed.

Lemma redownloadVideo_sameProbed env video : keeps sameProbed (redownloadVideo env video).
Proof.
  unfold redownloadVideo. repeat keeps_step.
  - intros w. unfold getConfig. by case_match.
  - intros w. unfold fsRm. by case_match.
  - apply keeps_onDb_sameProbed.
  - by intros w.
  - intros w. unfold sameProbed, startProcessing, modify. simpl.
    case_match; [reflexivity | apply processQueue_probed].
Qed.

Lemma redownloadVideo_settles env video : settles (redownloadVideo env video).
Proof.
  unfold redownloadVideo.
  apply settles_bind; [intros w; unfold getConfig; by case_match|intros config].
  apply settles_bind; [intros w; unfold fsRm; by case_match|intros _].
  apply settles_bind; [apply settles_zoom, settles_deleteVideo|intros _].
  apply settles_bind; [apply settles_modify|intros _]. apply settles_modify.
Qed.

Lemma probe_never_throws parse o message :
  Https.checkSponsorBlockData parse o <> Throw message.
Proof. destruct o; simpl; [discriminate|]. by case_match. Qed.

Lemma sweep_loop env config (l : list Video.t) w :
  Forall (probeSettles env config) l ->
  exists w',
    forEach l (fun video =>
      hasSponsorBlock <-
        checkSponsorBlockData env (Video.id video)
          (Config.sponsorBlockCategories config) ;;
      if hasSponsorBlock
      then catch (redownloadVideo env video) (fun _ => ret tt)
      else ret tt) w = (Ok tt, w')
    /\ World.probed w' = World.probed w ++ List.map Video.id l.
Proof.
  intros Hl. revert w. induction Hl as [|v l Hv _ IH]; intros w; simpl.
  { exists w. by rewrite app_nil_r. }
  unfold probeSettles in Hv.
  destruct (Https.checkSponsorBlockData (Env.JSON_parse env)
              (Env.network env (Video.id v) (Config.sponsorBlockCategories config)))
    as [b|e|] eqn:Ep; [|by eapply probe_never_throws in Ep|done].
  set (w1 := setProbed (World.probed w ++ [Video.id v]) w).
  assert (H1 : checkSponsorBlockData env (Video.id v)
                 (Config.sponsorBlockCategories config) w = (Ok b, w1)).
  { unfold checkSponsorBlockData. by rewrite Ep. }
  assert (H2 : exists w2,
    (if b then catch (redownloadVideo env v) (fun _ => ret tt) else ret tt) w1
    = (Ok tt, w2) /\ World.probed w2 = World.probed w1).
  { destruct b; [|by exists w1].
    pose proof (redownloadVideo_sameProbed env v w1) as Hp.
    pose proof (redownloadVideo_settles env v w1) as Hs.
    unfold catch. destruct (redownloadVideo env v w1) as [[[]|e|] w2]; simpl in *;
      [by exists w2|by exists w2|done]. }
  destruct H2 as (w2 & H2 & Hp2).
  destruct (IH w2) as (w' & H3 & Hp3).
  exists w'. split.
  - erewrite bind_ok; [exact H3|]. by rewrite (bind_ok _ _ _ _ _ H1).
  - rewrite Hp3, Hp2. unfold w1. simpl. by rewrite <- app_assoc.
Qed.

(** C5 (amended).  The sweep selects the records with status [completed]
    whose [hasSponsorBlock] is [false] (a record without the flag is not
    selected).  When the configuration and the store are loaded and every
    probe settles, the sweep returns and has called the probe once for
    each selected record, in the order of the store. *)
Theorem sweep_probes_completed_records_flagged_false
    (env : Env.t) (w : World.t) (config : Config.t) (d : Database.t) :
  World.configManager w = Some config ->
  DatabaseManager.db (World.database w) = Some d ->
  Forall (probeSettles env config)
    (List.filter withoutSponsorBlock (Database.videos d)) ->
  (forall v, In v (List.filter withoutSponsorBlock (Database.videos d)) <->
     In v (Database.videos d) /\ Video.status v = completed
     /\ Video.hasSponsorBlock v = Some false)
  /\ exists w',
       checkAndUpdateSponsorBlockVideos env w = (Ok tt, w')
       /\ World.probed w' =
            World.probed w
            ++ List.map Video.id (List.filter withoutSponsorBlock (Database.videos d)).
Proof.
  intros Hc Hd Hp. split.
  { intros v. rewrite filter_In. unfold withoutSponsorBlock.
    destruct (Video.status v), (Video.hasSponsorBlock v) as [[]|]; simpl;
      intuition congruence. }
  unfold checkAndUpdateSponsorBlockVideos.
  assert (H1 : getConfig w = (Ok config, w)) by (unfold getConfig; by rewrite Hc).
  rewrite (bind_ok _ _ _ _ _ H1).
  assert (H2 : onDb (getVideos None) w = (Ok (Database.videos d), w)).
  { destruct w as [[db file saves diskError] ? ? ? ? ? ? ?]. simpl in Hd. subst.
    reflexivity. }
  rewrite (bind_ok _ _ _ _ _ H2).
  destruct (sweep_loop env config _ w Hp) as (w' & H3 & Hp3).
  destruct (List.filter withoutSponsorBlock (Database.videos d)) as [|v l] eqn:E.
  - exists w. by rewrite app_nil_r.
  - exists w'. by split.
Qed.

(** *** The drain loop does not see the jobs it has admitted *)

Lemma drainLoop_admits_all config queue w :
  World.activeDownloads w = ∅ ->
  (0 < Config.maxConcurrentDownloads config)%Z ->
  is_Some (World.configManager w) ->
  let w' := drainLoop config queue w in
  World.downloadQueue w' = [] /\ World.isProcessingQueue w' = false
  /\ World.activeDownloads w' = ∅ /\ World.drainTimer w' = World.drainTimer w
  /\ exists added, World.jobs w' = World.jobs w ++ added
       /\ List.map Job.video added = queue
       /\ Forall (fun job => Job.phase job = AwaitMkdir) added.
Proof.
  intros Ha Hc. revert w Ha. induction queue as [|v queue IH]; intros w Ha [c0 Hcfg]; simpl.
  { split; [reflexivity|]. split; [reflexivity|]. split; [exact Ha|].
    split; [reflexivity|]. exists []. by rewrite app_nil_r. }
  rewrite Ha, map_size_empty.
  assert ((Z.of_nat 0 >=? Config.maxConcurrentDownloads config)%Z = false) as ->
    by (rewrite Z.geb_leb; apply Z.leb_gt; lia).
  set (w1 := downloadVideoStart v (setDownloadQueue queue w)).
  assert (World.jobs w1 = World.jobs w ++
            [Job.Make v c0 (sanitizeFilename (QueueItem.title v))
               (pathJoin (Config.downloadPath c0) (QueueItem.id v)) []
               (DownloadProgress.Make (QueueItem.id v) (QueueItem.title v)
                  (Num 0) downloading None) AwaitMkdir]
          /\ World.activeDownloads w1 = ∅
          /\ World.configManager w1 = Some c0
          /\ World.drainTimer w1 = World.drainTimer w) as (Hj & Ha1 & Hc1 & Ht1).
  { unfold w1, downloadVideoStart. simpl. rewrite Hcfg. by simpl. }
  destruct (IH w1 Ha1) as (Hq & Hp & Hact & Ht & added & Hadd & Hv & Hph); [by eauto|].
  split; [exact Hq|]. split; [exact Hp|]. split; [exact Hact|].
  split; [congruence|].
  eexists (_ :: added). split; [by rewrite Hadd, Hj, <- app_assoc|].
  split; [simpl; by rewrite Hv|]. by constructor.
Qed.

Lemma mkdirDone_registers j job w :
  World.jobs w !! j = Some job -> Job.phase job = AwaitMkdir ->
  World.activeDownloads (mkdirDone j None w)
  = <[QueueItem.id (Job.video job) := j]> (World.activeDownloads w)
  /\ World.jobs (mkdirDone j None w) = <[j := withPhase Running job]> (World.jobs w).
Proof. intros Hj Hp. unfold mkdirDone. rewrite Hj, Hp. by simpl. Qed.

Lemma mkdirs_register (jobs : list Job.t) k w :
  (forall i job, jobs !! i = Some job ->
     World.jobs w !! (k + i)%nat = Some job /\ Job.phase job = AwaitMkdir) ->
  NoDup (List.map (fun job => QueueItem.id (Job.video job)) jobs) ->
  (forall job, job ∈ jobs ->
     World.activeDownloads w !! QueueItem.id (Job.video job) = None) ->
  size (World.activeDownloads
          (run (List.map (fun j => MkdirDone j None) (seq k (length jobs))) w))
  = (size (World.activeDownloads w) + length jobs)%nat.
Proof.
  revert k w. induction jobs as [|job jobs IH]; intros k w Hjobs Hnd Hfresh; simpl.
  { lia. }
  destruct (Hjobs 0%nat job eq_refl) as [Hj Hp]. rewrite Nat.add_0_r in Hj.
  destruct (mkdirDone_registers k job w Hj Hp) as [Ha Hjs].
  cbn [List.map] in Hnd. apply NoDup_cons in Hnd as [Hnotin Hnd].
  rewrite (IH (S k) (mkdirDone k None w)); [| |exact Hnd|].
  - rewrite Ha, map_size_insert_None; [lia|]. apply Hfresh. left.
  - intros i job' Hi. destruct (Hjobs (S i) job' Hi) as [Hj' Hp'].
    split; [|exact Hp']. rewrite Hjs, list_lookup_insert_ne by lia.
    by replace (S k + i)%nat with (k + S i)%nat by lia.
  - intros job' Hin. rewrite Ha, lookup_insert_ne; [apply Hfresh; by right|].
    intros E. apply Hnotin. rewrite E.
    apply list_elem_of_In, (in_map (fun job => QueueItem.id (Job.video job))).
    by apply list_elem_of_In.
Qed.

(** Whatever the ceiling, a drain loop that starts with no job running
    admits its whole queue, and every admitted job becomes active. *)
Lemma drain_loop_ignores_ceiling (config : Config.t) (w : World.t) :
  (0 < Config.maxConcurrentDownloads config)%Z ->
  World.configManager w = Some config ->
  World.isProcessingQueue w = false ->
  World.activeDownloads w = ∅ ->
  World.jobs w = [] ->
  NoDup (List.map QueueItem.id (World.downloadQueue w)) ->
  let n := length (World.downloadQueue w) in
  let w1 := processQueue w in
  World.downloadQueue w1 = []
  /\ size (World.activeDownloads
             (run (List.map (fun j => MkdirDone j None) (seq 0 n)) w1)) = n.
Proof.
  intros Hc Hcfg Hp Ha Hj Hnd n w1.
  unfold w1, processQueue. rewrite Hp. simpl. rewrite Hcfg.
  destruct (drainLoop_admits_all config (World.downloadQueue w)
              (setIsProcessingQueue true w) Ha Hc)
    as (Hq & _ & Hact & _ & added & Hadd & Hv & Hph); [simpl; by eauto|].
  split; [exact Hq|].
  simpl in Hadd. rewrite Hj in Hadd. simpl in Hadd.
  assert (Hn : n = length added).
  { unfold n. by rewrite <- Hv, length_map. }
  rewrite Hn, (mkdirs_register added 0%nat).
  - rewrite Hact, map_size_empty. lia.
  - intros i job Hi. simpl. rewrite Hadd. split; [exact Hi|].
    by eapply (Forall_lookup_1 _ _ _ _ Hph).
  - rewrite <- Hv in Hnd. by rewrite List.map_map in Hnd.
  - intros job _. rewrite Hact. apply lookup_empty.
Qed.

(** *** The claims on sample runs *)

(** C1 (the code breaks the claim).  With a ceiling of 1 and a playlist
    of three new items, the call of [syncPlaylist] starts the drain loop,
    and the loop admits the three items in one turn: [downloadVideo] puts
    a job into [activeDownloads] only after its [await fs.mkdir], so the
    size that the loop compares with the ceiling is still 0 at each
    admission.  When the three [fs.mkdir] are done, [activeDownloads]
    holds three jobs. *)
Theorem drain_loop_admits_whole_queue :
  let env := sampleEnv ["a"; "b"; "c"] noSegments in
  let w1 := step (CallSyncPlaylist env samplePlaylist) (sampleWorld 1 reliable) in
  let w2 := run [MkdirDone 0 None; MkdirDone 1 None; MkdirDone 2 None] w1 in
  Config.maxConcurrentDownloads (sampleConfig 1) = 1%Z
  /\ World.downloadQueue w1 = [] /\ length (World.jobs w1) = 3%nat
  /\ World.isProcessingQueue w1 = false
  /\ size (World.activeDownloads w2) = 3%nat.
Proof. vm_compute. repeat split. Qed.




Lemma pair_of_fst {A B} (x : A * B) a : x.1 = a -> x = (a, x.2).
Proof. destruct x. simpl. by intros ->. Qed.


(** C5, counterexample: a completed record without the flag is not
    probed, although the service has segments for it. *)
Lemma sweep_skips_record_without_flag :
  let v := sampleVideo "a" completed None in
  let w := worldWith [v] reliable in
  let after := checkAndUpdateSponsorBlockVideos (sampleEnv ["a"] someSegments) w in
  Video.status v = completed /\ Video.hasSponsorBlock v = None
  /\ after.1 = Ok tt /\ World.probed after.2 = [] /\ World.downloadQueue after.2 = [].
Proof. vm_compute. repeat split. Qed.

(** C5, witness. *)
Lemma sweep_witness :
  let w := worldWith [sampleVideo "a" completed (Some false);
                      sampleVideo "b" completed (Some true);
                      sampleVideo "c" failed None;
                      sampleVideo "d" completed None] reliable in
  exists w',
    checkAndUpdateSponsorBlockVideos (sampleEnv ["a"] someSegments) w = (Ok tt, w')
    /\ World.probed w' = [js "a"].
Proof.
  intros w.
  apply (sweep_probes_completed_records_flagged_false
           (sampleEnv ["a"] someSegments) w (sampleConfig 2)
           (Database.Make [samplePlaylist]
              [sampleVideo "a" completed (Some false);
               sampleVideo "b" completed (Some true);
               sampleVideo "c" failed None;
               sampleVideo "d" completed None])).
  - reflexivity.
  - reflexivity.
  - repeat constructor. vm_compute. discriminate.
Defined.

(** C7, counterexample: the listing is resolved and one recorded item is
    no longer listed; the write of [deleteVideo] fails, [syncPlaylist]
    throws and [lastChecked] is still [null]. *)
Lemma failed_store_write_skips_lastChecked :
  let env := sampleEnv ["a"; "b"] noSegments in
  let w := worldWith [sampleVideo "x" completed (Some true)] (failsAt 0) in
  let after := syncPlaylist env samplePlaylist w in
  Env.listing env (Playlist.url samplePlaylist) = Ok (sampleListing ["a"; "b"])
  /\ after.1 = Throw (js "ENOSPC: no space left on device")
  /\ lastCheckedOf after.2 = [None].
Proof. vm_compute. repeat split. Qed.

(** C7, witness: every removal of a folder fails, the writes succeed. *)
Lemma lastChecked_witness :
  let env := sampleEnv ["a"; "b"] noSegments in
  let w := worldWith [sampleVideo "x" completed (Some true)] reliable in
  exists n w' d' stored',
    syncPlaylist env samplePlaylist w = (Ok n, w')
    /\ DatabaseManager.db (World.database w') = Some d'
    /\ List.find (hasId (Playlist.id samplePlaylist)) (Database.playlists d')
       = Some stored'
    /\ Playlist.lastChecked stored' = Some (Env.now env).
Proof.
  intros env w.
  apply (lastChecked_recorded_when_writes_succeed env samplePlaylist samplePlaylist w
           (sampleConfig 2)
           (Database.Make [samplePlaylist] [sampleVideo "x" completed (Some true)])
           (sampleListing ["a"; "b"])).
  - reflexivity.
  - reflexivity.
  - intros n. reflexivity.
  - reflexivity.
  - vm_compute. reflexivity.
Defined.



(** ** Further properties of the code *)

(** *** More on the progress parser *)

Lemma js_cons a p : js (String a p) = N_of_ascii a :: js p.
Proof. reflexivity. Qed.

Lemma matchHere_lit_inv p rest s g :
  matchHere (lit p ++ rest) s = Some g ->
  exists s', s = js p ++ s' /\ matchHere rest s' = Some g.
Proof.
  revert s g. induction p as [|a p IH]; intros s g; [by exists s|].
  change (lit (String a p) ++ rest) with (Atom (isChar a) One false :: (lit p ++ rest)).
  rewrite js_cons. simpl. destruct s as [|c s]; [discriminate|].
  unfold isChar at 1. unfold keep. simpl.
  destruct (N.eqb_spec c (N_of_ascii a)) as [->|]; [|discriminate].
  intros H. apply IH in H as (s' & -> & H). by exists s'.
Qed.

(** A quantified class outside the group hands the group of the rest on. *)
Lemma matchHere_plus_skip f tail s g :
  matchHere (Atom f Plus false :: tail) s = Some g ->
  exists s', matchHere tail s' = Some g.
Proof.
  simpl. destruct s as [|c s]; [discriminate|].
  destruct (f c); [|discriminate]. unfold keep. simpl.
  revert g. induction s as [|d s IH]; intros g H; [by exists []|].
  destruct (f d); [|by exists (d :: s)].
  match type of H with match ?x with _ => _ end = _ => destruct x eqn:E end.
  - simplify_eq. by apply IH.
  - by exists (d :: s).
Qed.

Lemma matchHere_plus_captured f tail s g :
  matchHere (Atom f Plus true :: tail) s = Some g ->
  exists c g', g = c :: g' /\ f c = true.
Proof.
  simpl. destruct s as [|c s]; [discriminate|].
  destruct (f c) eqn:E; [|discriminate]. unfold keep at 1. simpl.
  intros H. apply fmap_Some in H as (g' & _ & ->). eauto.
Qed.

Lemma regexMatch_cons p c s :
  regexMatch p (c :: s)
  = match matchHere p (c :: s) with
    | Some g => Some g
    | None => regexMatch p s
    end.
Proof. reflexivity. Qed.

Lemma progress_group_starts_with_digit line g :
  regexMatch progressRegex line = Some g ->
  exists c g', g = c :: g' /\ isDigit c = true.
Proof.
  induction line as [|c line IH].
  - intros H. vm_compute in H. discriminate.
  - rewrite regexMatch_cons.
    destruct (matchHere progressRegex (c :: line)) eqn:E; [|exact IH].
    intros ?; simplify_eq. unfold progressRegex in E.
    apply matchHere_lit_inv in E as (s' & _ & E).
    apply matchHere_plus_skip in E as (s'' & E).
    by apply matchHere_plus_captured in E.
Qed.

Lemma digitsVal_nonneg ds : (0 <= digitsVal ds)%Z.
Proof.
  unfold digitsVal.
  assert (H : forall acc, (0 <= acc)%Z ->
            (0 <= fold_left (fun acc c => 10 * acc + digitVal c) ds acc)%Z).
  { induction ds as [|d ds IH]; intros acc Hacc; simpl; [exact Hacc|].
    apply IH. unfold digitVal. lia. }
  apply H. lia.
Qed.

(** X1.  Whenever [parseProgress] returns a value, the value is a number
    (never [NaN]) and it is not negative: the group that [parseFloat]
    reads starts with a digit and holds digits and dots only. *)
Theorem parseProgress_is_a_nonnegative_number (line : str) (value : number) :
  parseProgress line = Some value ->
  exists q, value = Num q /\ (0 <= q)%Q.
Proof.
  unfold parseProgress.
  destruct (regexMatch progressRegex line) as [g|] eqn:E; [|discriminate].
  intros [= <-].
  apply progress_group_starts_with_digit in E as (c & g' & -> & Hc).
  unfold parseFloat. simpl. rewrite Hc.
  destruct (span isDigit g') as [a b].
  destruct b as [|d b]; [|destruct (N.eqb_spec d 46) as [->|Hd]].
  - eexists. split; [reflexivity|].
    unfold Qle. simpl. pose proof (digitsVal_nonneg (c :: a)). lia.
  - destruct (span isDigit b) as [fp r]. eexists. split; [reflexivity|].
    rewrite Qred_correct.
    pose proof (digitsVal_nonneg (c :: a)). pose proof (digitsVal_nonneg fp).
    unfold Qle, Qplus. simpl. nia.
  - assert (exists q, match d with
                      | 46 => let (fp, _) := span isDigit b in
                              Num (Qred (inject_Z (digitsVal (c :: a))
                                + (digitsVal fp # Pos.of_nat (10 ^ length fp))))%Q
                      | _ => Num (inject_Z (digitsVal (c :: a)))
                      end = Num q /\ (0 <= q)%Q) as Hq.
    { exists (inject_Z (digitsVal (c :: a))). split.
      - destruct d as [|p]; [reflexivity|].
        repeat (destruct p as [p|p|]; try reflexivity); lia.
      - unfold Qle. simpl. pose proof (digitsVal_nonneg (c :: a)). lia. }
    exact Hq.
Qed.

Lemma parseProgress_number_witness :
  exists q, Num 100 = Num q /\ (0 <= q)%Q.
Proof.
  apply (parseProgress_is_a_nonnegative_number (js "[download] 100% of 3.00MiB")).
  vm_compute. reflexivity.
Defined.

(** *** More on [sanitizeFilename] *)

Lemma take_singleSpaced n b s :
  singleSpaced b s = true -> singleSpaced b (take n s) = true.
Proof.
  revert n b. induction s as [|c s IH]; intros [|n] b; simpl; try reflexivity.
  destruct (isSpace c).
  - intros [Hc Hs]%andb_prop. rewrite Hc. by apply IH.
  - apply IH.
Qed.

Lemma sanitizeFilename_singleSpaced s : singleSpaced false (sanitizeFilename s) = true.
Proof.
  unfold sanitizeFilename, substring0, trim.
  eapply take_singleSpaced, trimStart_singleSpaced, trimEnd_singleSpaced,
    collapseSpaces_singleSpaced.
Qed.

Lemma singleSpaced_lookup b s i c :
  singleSpaced b s = true -> s !! i = Some c -> isSpace c = true ->
  c = 32 /\ forall d, s !! S i = Some d -> isSpace d = false.
Proof.
  revert b i. induction s as [|x s IH]; intros b i; [discriminate|].
  destruct i as [|i]; simpl.
  - intros H [= ->] Hc. rewrite Hc in H.
    apply andb_prop in H as [[_ Hx%N.eqb_eq]%andb_prop Hs]. split; [exact Hx|].
    intros d Hd. destruct s as [|y s]; [discriminate|]. simpl in *. simplify_eq.
    destruct (isSpace d); [discriminate | reflexivity].
  - intros H. destruct (isSpace x).
    + apply andb_prop in H as [_ H]. by eapply IH.
    + by eapply IH.
Qed.

(** X2.  Every white-space character in a result of [sanitizeFilename]
    is the plain space U+0020 and the character after it, if any, is not
    white space: runs of white space are collapsed to one space. *)
Theorem sanitizeFilename_spaces_are_single (filename : str) (i : nat) (c : N) :
  sanitizeFilename filename !! i = Some c ->
  isSpace c = true ->
  c = 32 /\ forall d, sanitizeFilename filename !! S i = Some d -> isSpace d = false.
Proof. apply singleSpaced_lookup with (b := false), sanitizeFilename_singleSpaced. Qed.

Lemma sanitizeFilename_spaces_witness :
  32 = 32
  /\ forall d, sanitizeFilename (js "a: b") !! 3%nat = Some d -> isSpace d = false.
Proof.
  apply (sanitizeFilename_spaces_are_single (js "a: b") 2 32); reflexivity.
Defined.

Lemma trimStart_id s : noLeadingSpace s -> trimStart s = s.
Proof. destruct s as [|c s]; simpl; [done|]. by intros ->. Qed.

Lemma trimEnd_noLeading s : noLeadingSpace s -> noLeadingSpace (trimEnd s).
Proof.
  destruct s as [|c s]; simpl; [done|]. intros Hc.
  destruct (trimEnd s); [by rewrite Hc | exact Hc].
Qed.

Lemma trimEnd_length s : (length (trimEnd s) <= length s)%nat.
Proof. apply prefix_length, trimEnd_prefix. Qed.

Lemma trimEnd_valid s : validChars s -> validChars (trimEnd s).
Proof.
  unfold validChars. intros H. destruct (trimEnd_prefix s) as [k E].
  rewrite E in H. by apply Forall_app in H as [H _].
Qed.

(** X3.  Sanitizing a result of [sanitizeFilename] again only trims its
    end (the space that the cut at 200 code units may leave), and from the
    second application on nothing changes. *)
Theorem sanitizeFilename_again_only_trims_the_end (filename : str) :
  sanitizeFilename (sanitizeFilename filename) = trimEnd (sanitizeFilename filename)
  /\ sanitizeFilename (sanitizeFilename (sanitizeFilename filename))
     = sanitizeFilename (sanitizeFilename filename).
Proof.
  assert (H : forall s, sanitizeFilename (sanitizeFilename s)
                        = trimEnd (sanitizeFilename s)).
  { intros s. set (out := sanitizeFilename s).
    assert (Hv : validChars out) by apply sanitizeFilename_valid.
    assert (Hs : singleSpaced false out = true) by apply sanitizeFilename_singleSpaced.
    assert (Hl : noLeadingSpace out).
    { apply take_noLeading, trimStart_noLeading. }
    assert (Hn : (length out <= 200)%nat).
    { unfold out, sanitizeFilename, substring0. rewrite length_take. lia. }
    unfold sanitizeFilename at 1. unfold substring0, trim.
    rewrite (replaceInvalid_id _ Hv), (collapseSpaces_id _ _ Hs).
    rewrite (trimStart_id _ (trimEnd_noLeading _ Hl)).
    apply take_ge. pose proof (trimEnd_length out). lia. }
  split; [apply H|].
  rewrite (H (sanitizeFilename filename)), (H filename). apply trimEnd_idem.
Qed.

(** *** The store before [load] *)

(** X4.  Before [load] has set the store, every method that reads it
    throws [Database not loaded. Call load() first.] and [save] throws
    [Database not loaded]; none of them changes the manager. *)
Theorem store_methods_throw_before_load (m : DatabaseManager.t) :
  DatabaseManager.db m = None ->
  (forall g p, addPlaylist g p m = (Throw notLoaded, m))
  /\ (forall id, removePlaylist id m = (Throw notLoaded, m))
  /\ (forall id u, updatePlaylist id u m = (Throw notLoaded, m))
  /\ getPlaylists m = (Throw notLoaded, m)
  /\ (forall now v, addVideo now v m = (Throw notLoaded, m))
  /\ (forall p, getVideos p m = (Throw notLoaded, m))
  /\ (forall id, isVideoDownloaded id m = (Throw notLoaded, m))
  /\ (forall id, deleteVideo id m = (Throw notLoaded, m))
  /\ save m = (Throw (js "Database not loaded"), m).
Proof.
  intros H. repeat apply conj; intros; unfold_db; by rewrite H.
Qed.

Lemma store_before_load_witness :
  isVideoDownloaded (js "a") (DatabaseManager.Make None None 0 reliable)
  = (Throw notLoaded, DatabaseManager.Make None None 0 reliable).
Proof.
  apply (store_methods_throw_before_load
           (DatabaseManager.Make None None 0 reliable) eq_refl).
Defined.

(** *** Records *)

(** X5.  On a loaded store [addVideo] appends, at the end of [videos],
    the record it is given with [downloadedAt] set to the current time;
    the playlists are untouched and [getVideos()] returns the old records
    followed by the new one.  When the write succeeds the stamped record
    is returned and the file holds the store; when the write fails the
    error is thrown, the file is as before and the record stays in
    memory. *)
Theorem addVideo_appends_the_stamped_record
    (m : DatabaseManager.t) (d : Database.t) (now : str) (video : Video.t) :
  DatabaseManager.db m = Some d ->
  let after := addVideo now video m in
  recordsOf after.2 = Database.videos d ++ [withDownloadedAt now video]
  /\ playlistsOf after.2 = Database.playlists d
  /\ getVideos None after.2
     = (Ok (Database.videos d ++ [withDownloadedAt now video]), after.2)
  /\ (DatabaseManager.diskError m (DatabaseManager.saves m) = None ->
      after.1 = Ok (withDownloadedAt now video)
      /\ DatabaseManager.file after.2 = DatabaseManager.db after.2)
  /\ (forall e, DatabaseManager.diskError m (DatabaseManager.saves m) = Some e ->
      after.1 = Throw e
      /\ DatabaseManager.file after.2 = DatabaseManager.file m).
Proof.
  destruct m as [db file saves diskError]. simpl. intros ->.
  unfold recordsOf, playlistsOf, withDownloadedAt. unfold_db. simpl.
  destruct (diskError saves) as [e|] eqn:E; simpl; repeat apply conj;
    try reflexivity; try discriminate; intros; by simplify_eq.
Qed.

Lemma addVideo_appends_witness :
  let m := DatabaseManager.Make (Some DEFAULT_DATABASE) (Some DEFAULT_DATABASE) 1
             reliable in
  recordsOf (addVideo (js "t1") (sampleVideo "a" failed None) m).2
  = [withDownloadedAt (js "t1") (sampleVideo "a" failed None)].
Proof.
  intros m.
  apply (proj1 (addVideo_appends_the_stamped_record m DEFAULT_DATABASE (js "t1")
                  (sampleVideo "a" failed None) eq_refl)).
Defined.

Lemma findIndex_app {A} (f : A -> bool) (l1 l2 : list A) x :
  Forall (fun y => f y = false) l1 -> f x = true ->
  findIndex f (l1 ++ x :: l2) = Some (length l1).
Proof.
  intros H Hx. induction H as [|y l1 Hy _ IH]; simpl; [by rewrite Hx|].
  by rewrite Hy, IH.
Qed.

Lemma delete_middle {A} (l1 l2 : list A) x :
  delete (length l1) (l1 ++ x :: l2) = l1 ++ l2.
Proof. induction l1 as [|y l1 IH]; simpl; [reflexivity|]. by rewrite IH. Qed.

(** X6.  [deleteVideo] removes the first record that has the id, and
    that record only: later records with the same id stay.  The playlists
    are untouched; when the write succeeds the removed record is returned
    and the file holds the store, when it fails the error is thrown. *)
Theorem deleteVideo_removes_the_first_record_with_the_id
    (m : DatabaseManager.t) (d : Database.t) (videoId : str)
    (before after : list Video.t) (video : Video.t) :
  DatabaseManager.db m = Some d ->
  Database.videos d = before ++ video :: after ->
  Forall (fun v => Video.id v <> videoId) before ->
  Video.id video = videoId ->
  let result := deleteVideo videoId m in
  recordsOf result.2 = before ++ after
  /\ playlistsOf result.2 = Database.playlists d
  /\ (DatabaseManager.diskError m (DatabaseManager.saves m) = None ->
      result.1 = Ok (Some video)
      /\ DatabaseManager.file result.2 = DatabaseManager.db result.2)
  /\ (forall e, DatabaseManager.diskError m (DatabaseManager.saves m) = Some e ->
      result.1 = Throw e).
Proof.
  destruct m as [db file saves diskError]. simpl. intros -> Hv Hb Hid.
  unfold recordsOf, playlistsOf. unfold_db. simpl. rewrite Hv.
  rewrite (findIndex_app _ before after video).
  - simpl. rewrite delete_middle.
    rewrite (list_lookup_middle before after video (length before) eq_refl).
    destruct (diskError saves) as [e|] eqn:E; simpl; repeat apply conj;
      try reflexivity; try discriminate; intros; by simplify_eq.
  - eapply Forall_impl; [exact Hb|]. intros v Hne. unfold str_eqb.
    by apply bool_decide_eq_false.
  - unfold str_eqb. by apply bool_decide_eq_true.
Qed.

Lemma deleteVideo_first_witness :
  let failedA := sampleVideo "a" failed None in
  let doneA := sampleVideo "a" completed (Some true) in
  let m := DatabaseManager.Make
             (Some (Database.Make [] [sampleVideo "b" failed None; failedA; doneA]))
             None 0 reliable in
  recordsOf (deleteVideo (js "a") m).2 = [sampleVideo "b" failed None] ++ [doneA].
Proof.
  intros failedA doneA m.
  apply (proj1 (deleteVideo_removes_the_first_record_with_the_id m
                  (Database.Make [] [sampleVideo "b" failed None; failedA; doneA])
                  (js "a") [sampleVideo "b" failed None] [doneA] failedA
                  eq_refl eq_refl
                  ltac:(repeat constructor; vm_compute; discriminate) eq_refl)).
Defined.

(** *** Playlists *)

Lemma filter_Forall_not {A} (f : A -> bool) (l : list A) :
  Forall (fun x => f x = true) (List.filter f l).
Proof.
  induction l as [|x l IH]; simpl; [constructor|].
  destruct (f x) eqn:E; [by constructor | exact IH].
Qed.

Lemma filter_none {A} (f : A -> bool) (l : list A) :
  Forall (fun x => f x = false) l -> List.filter f l = [].
Proof. induction 1 as [|x l Hx _ IH]; simpl; [reflexivity|]. by rewrite Hx. Qed.

Lemma filter_idem {A} (f : A -> bool) (l : list A) :
  List.filter f (List.filter f l) = List.filter f l.
Proof.
  induction l as [|x l IH]; simpl; [reflexivity|].
  destruct (f x) eqn:E; simpl; [by rewrite E, IH | exact IH].
Qed.

Lemma filter_shrinks {A} (f : A -> bool) (l : list A) x :
  In x l -> f x = false -> (length (List.filter f l) <? length l)%nat = true.
Proof.
  intros Hin Hx. apply Nat.ltb_lt.
  induction l as [|y l IH]; [destruct Hin|]. simpl.
  pose proof (filter_length_le f l).
  destruct Hin as [->|Hin].
  - rewrite Hx. lia.
  - specialize (IH Hin). destruct (f y); simpl; lia.
Qed.

(** X7.  [removePlaylist] with the id of a playlist of the store removes
    every playlist with that id and every record whose [playlistId] is
    that id, and no other record; [getVideos(id)] is empty afterwards.
    When the write succeeds it returns [true]. *)
Theorem removePlaylist_cascades
    (m : DatabaseManager.t) (d : Database.t) (id : str) (playlist : Playlist.t) :
  DatabaseManager.db m = Some d ->
  In playlist (Database.playlists d) ->
  Playlist.id playlist = id ->
  let result := removePlaylist id m in
  Forall (fun p => Playlist.id p <> id) (playlistsOf result.2)
  /\ Forall (fun v => Video.playlistId v <> id) (recordsOf result.2)
  /\ List.filter (fun v => negb (str_eqb (Video.playlistId v) id)) (recordsOf result.2)
     = List.filter (fun v => negb (str_eqb (Video.playlistId v) id)) (Database.videos d)
  /\ (id <> [] -> getVideos (Some id) result.2 = (Ok [], result.2))
  /\ (DatabaseManager.diskError m (DatabaseManager.saves m) = None ->
      result.1 = Ok true).
Proof.
  destruct m as [db file saves diskError]. simpl. intros -> Hin Hid.
  unfold recordsOf, playlistsOf. unfold_db. simpl.
  rewrite (filter_shrinks _ _ playlist Hin)
    by (unfold str_eqb; rewrite bool_decide_eq_true_2; done).
  simpl.
  assert (Hp : Forall (fun p => Playlist.id p <> id)
                 (List.filter (fun p => negb (str_eqb (Playlist.id p) id))
                    (Database.playlists d))).
  { eapply Forall_impl; [apply filter_Forall_not|]. intros p Hp. simpl in Hp.
    apply negb_true_iff in Hp. unfold str_eqb in Hp. by apply bool_decide_eq_false in Hp. }
  assert (Hv : Forall (fun v => Video.playlistId v <> id)
                 (List.filter (fun v => negb (str_eqb (Video.playlistId v) id))
                    (Database.videos d))).
  { eapply Forall_impl; [apply filter_Forall_not|]. intros v Hv. simpl in Hv.
    apply negb_true_iff in Hv. unfold str_eqb in Hv. by apply bool_decide_eq_false in Hv. }
  assert (Hg : id <> [] ->
            match id with
            | [] => List.filter (fun v => negb (str_eqb (Video.playlistId v) id))
                      (Database.videos d)
            | c :: p => List.filter (fun v => str_eqb (Video.playlistId v) (c :: p))
                          (List.filter (fun v => negb (str_eqb (Video.playlistId v) id))
                             (Database.videos d))
            end = []).
  { intros Hne. destruct id as [|c p] eqn:Eid; [done|]. apply filter_none.
    eapply Forall_impl; [exact Hv|]. intros v Hne'. unfold str_eqb.
    by apply bool_decide_eq_false. }
  destruct (diskError saves) as [e|] eqn:E; simpl; repeat apply conj;
    try exact Hp; try exact Hv; try apply filter_idem; try discriminate;
    try reflexivity.
  all: intros Hne; destruct id as [|c p]; [done|]; by rewrite (Hg Hne).
Qed.

Lemma removePlaylist_cascades_witness :
  let d := Database.Make [samplePlaylist]
             [sampleVideo "a" completed (Some true); sampleVideo "b" failed None] in
  let m := DatabaseManager.Make (Some d) (Some d) 2 reliable in
  getVideos (Some (js "p1")) (removePlaylist (js "p1") m).2
  = (Ok [], (removePlaylist (js "p1") m).2).
Proof.
  intros d m.
  apply (proj1 (proj2 (proj2 (proj2
           (removePlaylist_cascades m d (js "p1") samplePlaylist eq_refl
              ltac:(by left) eq_refl))))).
  vm_compute. discriminate.
Defined.

(** X8.  [removePlaylist] with an id that no playlist has returns
    [false], keeps the playlists and the records (also the records whose
    [playlistId] is that id) and does not write the file. *)
Theorem removePlaylist_unknown_id_keeps_everything
    (m : DatabaseManager.t) (d : Database.t) (id : str) :
  DatabaseManager.db m = Some d ->
  Forall (fun p => Playlist.id p <> id) (Database.playlists d) ->
  let result := removePlaylist id m in
  result.1 = Ok false
  /\ recordsOf result.2 = Database.videos d
  /\ playlistsOf result.2 = Database.playlists d
  /\ DatabaseManager.file result.2 = DatabaseManager.file m
  /\ DatabaseManager.saves result.2 = DatabaseManager.saves m.
Proof.
  destruct m as [db file saves diskError]. simpl. intros -> Hno.
  assert (Hf : List.filter (fun p => negb (str_eqb (Playlist.id p) id))
                 (Database.playlists d) = Database.playlists d).
  { induction Hno as [|p l Hp _ IH]; simpl; [reflexivity|].
    unfold str_eqb at 1. rewrite bool_decide_eq_false_2 by done. simpl. by rewrite IH. }
  unfold recordsOf, playlistsOf. unfold_db. simpl. rewrite Hf, Nat.ltb_irrefl.
  by simpl.
Qed.

Lemma removePlaylist_unknown_witness :
  let d := Database.Make [samplePlaylist] [sampleVideo "a" completed (Some true)] in
  let m := DatabaseManager.Make (Some d) (Some d) 2 reliable in
  (removePlaylist (js "p2") m).1 = Ok false.
Proof.
  intros d m.
  apply (proj1 (removePlaylist_unknown_id_keeps_everything m d (js "p2") eq_refl
                  ltac:(repeat constructor; vm_compute; discriminate))).
Defined.

Lemma find_none {A} (f : A -> bool) (l : list A) :
  Forall (fun x => f x = false) l -> List.find f l = None.
Proof. induction 1 as [|x l Hx _ IH]; simpl; [reflexivity|]. by rewrite Hx. Qed.

Lemma find_app {A} (f : A -> bool) (l1 l2 : list A) x :
  Forall (fun y => f y = false) l1 -> f x = true ->
  List.find f (l1 ++ x :: l2) = Some x.
Proof.
  intros H Hx. induction H as [|y l1 Hy _ IH]; simpl; [by rewrite Hx|]. by rewrite Hy.
Qed.

Lemma updateFirst_app {A} (f : A -> bool) g (l1 l2 : list A) x :
  Forall (fun y => f y = false) l1 -> f x = true ->
  updateFirst f g (l1 ++ x :: l2) = l1 ++ g x :: l2.
Proof.
  intros H Hx. induction H as [|y l1 Hy _ IH]; simpl; [by rewrite Hx|].
  by rewrite Hy, IH.
Qed.

(** X9.  [updatePlaylist] with an id that no playlist has returns [null]
    and changes nothing, without a write.  Otherwise it assigns the
    updates to the first playlist with that id and to no other, keeps the
    records and, when the write succeeds, returns the updated playlist. *)
Theorem updatePlaylist_changes_the_first_match_only
    (m : DatabaseManager.t) (d : Database.t) (id : str)
    (updates : PlaylistUpdate.t) :
  DatabaseManager.db m = Some d ->
  (Forall (fun p => Playlist.id p <> id) (Database.playlists d) ->
   updatePlaylist id updates m = (Ok None, m))
  /\ (forall before playlist after,
        Database.playlists d = before ++ playlist :: after ->
        Forall (fun p => Playlist.id p <> id) before ->
        Playlist.id playlist = id ->
        let result := updatePlaylist id updates m in
        playlistsOf result.2 = before ++ assign playlist updates :: after
        /\ recordsOf result.2 = Database.videos d
        /\ (DatabaseManager.diskError m (DatabaseManager.saves m) = None ->
            result.1 = Ok (Some (assign playlist updates)))).
Proof.
  destruct m as [db file saves diskError]. simpl. intros ->. split.
  - intros Hno. unfold_db. simpl. rewrite find_none; [reflexivity|].
    eapply Forall_impl; [exact Hno|]. intros p Hp. unfold str_eqb.
    by apply bool_decide_eq_false.
  - intros before playlist after Hp Hb Hid.
    assert (Hb' : Forall (fun p => str_eqb (Playlist.id p) id = false) before).
    { eapply Forall_impl; [exact Hb|]. intros p Hne. unfold str_eqb.
      by apply bool_decide_eq_false. }
    assert (Hx : str_eqb (Playlist.id playlist) id = true).
    { unfold str_eqb. by apply bool_decide_eq_true. }
    unfold recordsOf, playlistsOf. unfold_db. simpl. rewrite Hp.
    rewrite (find_app _ before after playlist Hb' Hx). simpl.
    rewrite (updateFirst_app _ _ before after playlist Hb' Hx).
    destruct (diskError saves) as [e|] eqn:E; simpl; repeat apply conj;
      try reflexivity; discriminate.
Qed.

Lemma updatePlaylist_witness :
  let d := Database.Make [samplePlaylist] [] in
  let m := DatabaseManager.Make (Some d) (Some d) 2 reliable in
  updatePlaylist (js "p2") PlaylistUpdate.none m = (Ok None, m)
  /\ playlistsOf
       (updatePlaylist (js "p1")
          (PlaylistUpdate.Make None None None None (Some false)) m).2
     = [] ++ assign samplePlaylist
               (PlaylistUpdate.Make None None None None (Some false)) :: [].
Proof.
  intros d m. split.
  - apply (proj1 (updatePlaylist_changes_the_first_match_only m d (js "p2")
                    PlaylistUpdate.none eq_refl)).
    repeat constructor. vm_compute. discriminate.
  - apply (proj2 (updatePlaylist_changes_the_first_match_only m d (js "p1")
                    (PlaylistUpdate.Make None None None None (Some false)) eq_refl)
             [] samplePlaylist [] eq_refl ltac:(constructor) eq_refl).
Defined.

Arguments findOutput : simpl never.

(** *** The listing *)




(** *** The drain loop *)

Lemma downloadVideoStart_loaded config video w :
  World.configManager w = Some config ->
  downloadVideoStart video w = setJobs (World.jobs w ++ [newJob config video]) w.
Proof. intros H. unfold downloadVideoStart. by rewrite H. Qed.

Lemma drainLoop_parks config video queue w :
  (Config.maxConcurrentDownloads config <= Z.of_nat (size (World.activeDownloads w)))%Z ->
  drainLoop config (video :: queue) w
  = setDrainTimer (Some config) (setDownloadQueue (video :: queue) w).
Proof.
  intros Hge. simpl.
  assert ((Z.of_nat (size (World.activeDownloads w))
           >=? Config.maxConcurrentDownloads config)%Z = true) as ->
    by (rewrite Z.geb_leb; apply Z.leb_le; lia).
  reflexivity.
Qed.

(** X11.  One turn of the drain loop of [processQueue], with the
    configuration loaded: when the running set is below the ceiling the
    whole queue is handed to [downloadVideo] in queue order, one job per
    item, the queue is left empty and the loop ends; when the running set
    has reached the ceiling and the queue is not empty nothing is
    admitted, the queue is unchanged and the loop waits for its timer. *)
Theorem drain_loop_admits_all_or_nothing
    (config loaded : Config.t) (queue : list QueueItem.t) (w : World.t) :
  World.configManager w = Some loaded ->
  ((Z.of_nat (size (World.activeDownloads w)) < Config.maxConcurrentDownloads config)%Z ->
   drainLoop config queue w
   = setIsProcessingQueue false
       (setDownloadQueue []
          (setJobs (World.jobs w ++ List.map (newJob loaded) queue) w)))
  /\ ((Config.maxConcurrentDownloads config <= Z.of_nat (size (World.activeDownloads w)))%Z ->
      queue <> [] ->
      drainLoop config queue w = setDrainTimer (Some config) (setDownloadQueue queue w)).
Proof.
  intros Hc. split.
  - intros Hlt. revert w Hc Hlt. induction queue as [|video queue IH]; intros w Hc Hlt.
    { destruct w. simpl. by rewrite app_nil_r. }
    simpl.
    assert ((Z.of_nat (size (World.activeDownloads w))
             >=? Config.maxConcurrentDownloads config)%Z = false) as ->
      by (rewrite Z.geb_leb; apply Z.leb_gt; lia).
    rewrite (downloadVideoStart_loaded loaded) by done.
    rewrite IH; [|done|done]. destruct w. simpl. unfold setIsProcessingQueue,
      setDownloadQueue, setJobs. simpl. by rewrite <- app_assoc.
  - intros Hge Hq. destruct queue as [|video queue]; [done|].
    by apply drainLoop_parks.
Qed.

Lemma drain_loop_all_or_nothing_witness :
  let w := setDownloadQueue
             [QueueItem.Make (js "a") (js "A") (js "u") (js "p1");
              QueueItem.Make (js "b") (js "B") (js "u") (js "p1")]
             (sampleWorld 1 reliable) in
  List.map Job.video (World.jobs (drainLoop (sampleConfig 1) (World.downloadQueue w) w))
  = World.downloadQueue w.
Proof.
  intros w.
  rewrite (proj1 (drain_loop_admits_all_or_nothing (sampleConfig 1) (sampleConfig 1)
                    (World.downloadQueue w) w eq_refl)).
  - reflexivity.
  - vm_compute. reflexivity.
Defined.

(** *** The end of a job *)

(** X13.  The [close] event of a running job, on a loaded store, removes
    the item from the running set and appends exactly one record for it,
    with the id and playlist of the item and the current time.  The record
    is [completed] exactly when the exit code is 0, its [filepath] is empty
    exactly when it is [failed], and after exit code 0 its [hasSponsorBlock]
    is the answer of the probe. *)
Theorem close_writes_one_record
    (env : Env.t) (j : nat) (job : Job.t) (code : option Z) (w : World.t)
    (d : Database.t) :
  let probe :=
    Https.checkSponsorBlockData (Env.JSON_parse env)
      (Env.network env (QueueItem.id (Job.video job))
         (Config.sponsorBlockCategories (Job.config job))) in
  World.jobs w !! j = Some job ->
  Job.phase job = Running ->
  DatabaseManager.db (World.database w) = Some d ->
  (code = Some 0%Z -> probe <> Pending) ->
  let w' := processClosed env j code w in
  (exists r, videosOf w' = Database.videos d ++ [r]
     /\ Video.id r = QueueItem.id (Job.video job)
     /\ Video.playlistId r = QueueItem.playlistId (Job.video job)
     /\ Video.downloadedAt r = Env.now env
     /\ (Video.status r = completed <-> code = Some 0%Z)
     /\ (Video.filepath r = [] <-> Video.status r = failed)
     /\ (forall b, code = Some 0%Z -> probe = Ok b -> Video.hasSponsorBlock r = Some b))
  /\ World.activeDownloads w'
     = delete (QueueItem.id (Job.video job)) (World.activeDownloads w).
Proof.
  intros probe Hj Hp Hd Hs. unfold probe in *. clear probe.
  assert (Hlen : (j < length (World.jobs w))%nat) by (by eapply lookup_lt_Some).
  destruct w as [[db file saves diskError] cm act q pr jobs dt pb].
  simpl in *. subst db.
  unfold processClosed. simpl. rewrite Hj, Hp.
  unfold onClose, videosOf, recordsOf, checkSponsorBlockData, onDb. unfold_db.
  assert (Hnonempty : forall p : str,
            match p with
            | [] => pathJoin (Job.videoFolder job) (Job.sanitizedTitle job ++ js ".mp4")
            | _ => p
            end <> []).
  { intros [|c p]; [apply pathJoin_nonempty | done]. }
  destruct code as [[| |]|]; simpl.
  1: destruct (Https.checkSponsorBlockData (Env.JSON_parse env)
                 (Env.network env (QueueItem.id (Job.video job))
                    (Config.sponsorBlockCategories (Job.config job)))) as [b|e|] eqn:Ep;
       [|by eapply probe_never_throws in Ep|by destruct Hs]; simpl.
  all: destruct (diskError saves); simpl; unfold setJob; simpl;
    rewrite ?list_lookup_insert_eq by done; simpl.
  all: repeat apply conj; try reflexivity.
  all: try (eexists; split; [reflexivity|]; simpl; repeat apply conj;
            try reflexivity; try done;
            try (intros; by simplify_eq);
            try (split; intros; try done; exfalso; by eapply Hnonempty)).
  all: intros Hempty; exfalso; revert Hempty; repeat case_match; try done;
    apply pathJoin_nonempty.
Qed.

Lemma close_writes_one_record_witness :
  let env := sampleEnv ["a"] someSegments in
  let w := run [CallSyncPlaylist env samplePlaylist; MkdirDone 0 None]
             (sampleWorld 2 reliable) in
  exists r, videosOf (processClosed env 0 (Some 0%Z) w) = [] ++ [r]
    /\ Video.id r = js "a"
    /\ Video.status r = completed
    /\ Video.hasSponsorBlock r = Some true.
Proof.
  intros env w.
  destruct (close_writes_one_record env 0
              (withPhase Running (newJob (sampleConfig 2)
                 (QueueItem.Make (js "a") (js "a") (watchUrl (js "a")) (js "p1"))))
              (Some 0%Z) w (Database.Make
                 [Playlist.Make (js "p1") (Playlist.url samplePlaylist) (js "Talks")
                    (Some (Env.now env)) true] []))
    as [(r & Hr & Hid & _ & _ & Hs & _ & Hb) _].
  - vm_compute. reflexivity.
  - reflexivity.
  - vm_compute. reflexivity.
  - intros _. vm_compute. discriminate.
  - exists r. split; [exact Hr|]. split; [exact Hid|]. split; [by apply Hs|].
    apply Hb; [reflexivity|]. vm_compute. reflexivity.
Defined.

(** *** Errors of the sweep and of reconciliation *)

(** X14.  When the removal of the item's folder fails, [redownloadVideo]
    throws that error and changes nothing: the record is not deleted and
    nothing is queued.  Under the [try]/[catch] of the sweep the whole
    step is a no-op. *)
Theorem redownloadVideo_stops_when_the_folder_stays
    (env : Env.t) (video : Video.t) (w : World.t) (config : Config.t)
    (message : str) :
  World.configManager w = Some config ->
  Env.rmError env (pathJoin (Config.downloadPath config) (Video.id video))
  = Some message ->
  redownloadVideo env video w = (Throw message, w)
  /\ catch (redownloadVideo env video) (fun _ => ret tt) w = (Ok tt, w).
Proof.
  intros Hc Hrm.
  assert (H : redownloadVideo env video w = (Throw message, w)).
  { unfold redownloadVideo, bind, getConfig, fsRm. rewrite Hc. simpl.
    by rewrite Hrm. }
  split; [exact H|]. unfold catch. by rewrite H.
Qed.

Lemma redownloadVideo_stops_witness :
  let w := worldWith [sampleVideo "a" completed (Some false)] reliable in
  redownloadVideo (sampleEnv ["a"] someSegments) (sampleVideo "a" completed (Some false)) w
  = (Throw (js "EACCES: permission denied"), w).
Proof.
  intros w.
  apply (proj1 (redownloadVideo_stops_when_the_folder_stays
                  (sampleEnv ["a"] someSegments)
                  (sampleVideo "a" completed (Some false)) w (sampleConfig 2)
                  (js "EACCES: permission denied") eq_refl eq_refl)).
Defined.

Lemma sweep_loop_all_false env config (l : list Video.t) w :
  Forall (fun v =>
            Https.checkSponsorBlockData (Env.JSON_parse env)
              (Env.network env (Video.id v) (Config.sponsorBlockCategories config))
            = Ok false) l ->
  forEach l (fun video =>
    hasSponsorBlock <-
      checkSponsorBlockData env (Video.id video)
        (Config.sponsorBlockCategories config) ;;
    if hasSponsorBlock
    then catch (redownloadVideo env video) (fun _ => ret tt)
    else ret tt) w
  = (Ok tt, setProbed (World.probed w ++ List.map Video.id l) w).
Proof.
  intros Hl. revert w. induction Hl as [|v l Hv _ IH]; intros w; simpl.
  { destruct w. unfold ret, setProbed. simpl. by rewrite app_nil_r. }
  unfold bind at 1. unfold bind at 1. unfold checkSponsorBlockData at 1.
  rewrite Hv. simpl. rewrite IH. destruct w. unfold setProbed. simpl.
  by rewrite <- app_assoc.
Qed.

(** X15.  A sweep in which the probe answers [false] for every record it
    examines (the completed records whose flag is [false]) returns
    normally and changes neither the store nor the queue nor the jobs: it
    only queries the service, once per such record, in store order. *)
Theorem sweep_without_new_segments_changes_nothing
    (env : Env.t) (w : World.t) (config : Config.t) (d : Database.t) :
  World.configManager w = Some config ->
  DatabaseManager.db (World.database w) = Some d ->
  Forall (fun v =>
            Https.checkSponsorBlockData (Env.JSON_parse env)
              (Env.network env (Video.id v) (Config.sponsorBlockCategories config))
            = Ok false)
    (List.filter withoutSponsorBlock (Database.videos d)) ->
  checkAndUpdateSponsorBlockVideos env w
  = (Ok tt,
     setProbed
       (World.probed w
        ++ List.map Video.id (List.filter withoutSponsorBlock (Database.videos d)))
       w).
Proof.
  intros Hc Hd Hp. unfold checkAndUpdateSponsorBlockVideos.
  assert (H1 : getConfig w = (Ok config, w)) by (unfold getConfig; by rewrite Hc).
  rewrite (bind_ok _ _ _ _ _ H1).
  assert (H2 : onDb (getVideos None) w = (Ok (Database.videos d), w)).
  { destruct w as [[db file saves diskError] ? ? ? ? ? ? ?]. simpl in Hd. subst.
    reflexivity. }
  rewrite (bind_ok _ _ _ _ _ H2).
  pose proof (sweep_loop_all_false env config _ w Hp) as H3.
  destruct (List.filter withoutSponsorBlock (Database.videos d)) as [|v l] eqn:E.
  - destruct w. unfold ret, setProbed. simpl. by rewrite app_nil_r.
  - exact H3.
Qed.

Lemma sweep_without_new_segments_witness :
  let w := worldWith [sampleVideo "a" completed (Some false)] reliable in
  checkAndUpdateSponsorBlockVideos (sampleEnv ["a"] noSegments) w
  = (Ok tt, setProbed ([] ++ [js "a"]) w).
Proof.
  intros w.
  apply (sweep_without_new_segments_changes_nothing (sampleEnv ["a"] noSegments) w
           (sampleConfig 2)
           (Database.Make [samplePlaylist] [sampleVideo "a" completed (Some false)])
           eq_refl eq_refl).
  repeat constructor.
Defined.

Lemma forEach_caught_never_throws {S A} (l : list A) (m : A -> M S unit) :
  neverThrows (forEach l (fun x => catch (m x) (fun _ => ret tt))).
Proof.
  induction l as [|x l IH]; intros s message; simpl; [discriminate|].
  unfold bind, catch. destruct (m x s) as [[[]|e|] s1]; simpl;
    [apply IH|apply IH|discriminate].
Qed.

(** X16.  On a loaded store [syncAllPlaylists] never throws: an error of
    the reconciliation of one playlist is caught and does not reach the
    caller. *)
Theorem syncAllPlaylists_swallows_the_errors_of_a_playlist
    (env : Env.t) (w : World.t) (d : Database.t) (message : str) :
  DatabaseManager.db (World.database w) = Some d ->
  (syncAllPlaylists env w).1 <> Throw message.
Proof.
  intros Hd. unfold syncAllPlaylists.
  assert (H1 : onDb getPlaylists w = (Ok (Database.playlists d), w)).
  { destruct w as [[db file saves diskError] ? ? ? ? ? ? ?]. simpl in Hd. subst.
    reflexivity. }
  rewrite (bind_ok _ _ _ _ _ H1).
  apply (forEach_caught_never_throws (List.filter Playlist.enabled (Database.playlists d))
           (fun playlist => syncPlaylist env playlist ;;; ret tt)).
Qed.

Lemma syncAllPlaylists_swallows_witness :
  let env := Env.Make (js "t") (fun _ => Throw (js "yt-dlp: not found"))
               (fun _ => None) (fun _ => false)
               (fun _ _ => Https.GetEmits noSegments) (fun _ => None) in
  (syncAllPlaylists env (sampleWorld 2 reliable)).1
  <> Throw (js "Failed to fetch playlist info: yt-dlp: not found").
Proof.
  intros env.
  apply (syncAllPlaylists_swallows_the_errors_of_a_playlist env
           (sampleWorld 2 reliable) (Database.Make [samplePlaylist] [])).
  vm_compute. reflexivity.
Defined.

(** X18.  Records with status [failed] do not count as downloaded: on a
    store that holds failed records only, a reconciliation that returns
    reports every item of the listing as new. *)
Theorem failed_records_do_not_stop_a_new_attempt
    (env : Env.t) (playlist : Playlist.t) (w w' : World.t) (n : Z)
    (data : RawPlaylist.t) :
  Env.listing env (Playlist.url playlist) = Ok data ->
  Forall (fun v => Video.status v = failed) (videosOf w) ->
  syncPlaylist env playlist w = (Ok n, w') ->
  n = Z.of_nat (length (default [] (RawPlaylist.entries data))).
Proof.
  intros Hl Hf H. apply syncPlaylist_count in H as (info & Hi & -> & _).
  unfold getPlaylistInfo in Hi. rewrite Hl in Hi. simplify_eq. simpl.
  f_equal. rewrite forallb_filter_id; [by rewrite length_map|].
  apply forallb_forall. intros video _.
  unfold notDownloaded. apply negb_true_iff.
  apply not_true_is_false. intros (v & Hv & Hc)%existsb_exists.
  apply isCompletedFor_true in Hc as [_ Hc].
  apply list_elem_of_In in Hv.
  pose proof (proj1 (Forall_forall _ _) Hf v Hv) as Hfailed. congruence.
Qed.

Lemma failed_records_witness :
  let env := sampleEnv ["a"; "b"] noSegments in
  let w := worldWith [sampleVideo "a" failed None] reliable in
  2%Z = Z.of_nat (length (default [] (RawPlaylist.entries (sampleListing ["a"; "b"])))).
Proof.
  intros env w.
  apply (failed_records_do_not_stop_a_new_attempt env samplePlaylist w
           (syncPlaylist env samplePlaylist w).2 2 (sampleListing ["a"; "b"]) eq_refl).
  - repeat constructor.
  - apply pair_of_fst. vm_compute. reflexivity.
Defined.

(** *** Restart *)

#[export] Instance staysLoaded_preorder : PreOrder staysLoaded.
Proof. split; [by intros m H | intros a b c H1 H2 H; auto]. Qed.

#[export] Instance staysLoaded_store : StoreInvariant staysLoaded.
Proof.
  split; [apply _|..]; intros; intros [db file saves diskError];
    unfold staysLoaded; unfold_db; db_cases; intros [x Hx]; by simplify_eq.
Qed.

Lemma keeps_addVideo_staysLoaded now v : keeps staysLoaded (addVideo now v).
Proof.
  intros [db file saves diskError]. unfold staysLoaded. unfold_db.
  db_cases; intros [x Hx]; by simplify_eq.
Qed.

(** An event keeps what the methods of the store keep. *)
Lemma step_keeps (R : relation DatabaseManager.t) `{!StoreInvariant R} e w :
  (forall now v, keeps R (addVideo now v)) ->
  onDatabase R w (step e w).
Proof.
  intros Hadd. destruct e; simpl.
  - apply keeps_syncPlaylist, _.
  - apply keeps_syncAllPlaylists, _.
  - apply keeps_sweep, _.
  - apply (keeps_onDb R), keeps_addPlaylist.
  - apply (keeps_onDb R), keeps_removePlaylist.
  - apply (keeps_onDb R), keeps_updatePlaylist.
  - apply onDatabase_same, timerFired_database; apply _.
  - apply onDatabase_same; [apply _|]. unfold mkdirDone. by repeat case_match.
  - apply onDatabase_same; [apply _|]. unfold stdoutData. by repeat case_match.
  - unfold processClosed. repeat case_match; try reflexivity.
    match goal with |- onDatabase _ _ (?m ?x).2 =>
      assert (keeps (onDatabase R) m) as Hk; [|apply (Hk x)] end.
    unfold onClose. repeat case_match; repeat keeps_step;
      try (apply keeps_sameDatabase; [apply _ | intros ?; reflexivity]);
      apply Hadd.
  - unfold processError. repeat case_match; try reflexivity.
    match goal with |- onDatabase _ _ (?m ?x).2 =>
      assert (keeps (onDatabase R) m) as Hk; [|apply (Hk x)] end.
    repeat keeps_step; [apply keeps_sameDatabase; [apply _ | intros ?; reflexivity]|].
    apply Hadd.
Qed.

Lemma run_keeps (R : relation DatabaseManager.t) `{!StoreInvariant R} events w :
  (forall now v, keeps R (addVideo now v)) ->
  onDatabase R w (run events w).
Proof.
  intros Hadd. revert w. induction events as [|e events IH]; intros w; [reflexivity|].
  etransitivity; [by apply step_keeps | apply (IH (step e w))].
Qed.

Lemma run_loaded events w :
  is_Some (DatabaseManager.db (World.database w)) ->
  is_Some (DatabaseManager.db (World.database (run events w))).
Proof. apply (run_keeps staysLoaded), keeps_addVideo_staysLoaded. Qed.

(** X20.  When no write fails, after every sequence of events the file
    holds what is in memory: a manager that starts with the same file and
    calls [load] gets the same store. *)
Theorem restart_reloads_the_store
    (config : Config.t) (diskError : nat -> option str) (events : list event) :
  (forall n, diskError n = None) ->
  let m := World.database (run events (initialWorld config diskError)) in
  exists d,
    DatabaseManager.db m = Some d
    /\ load (DatabaseManager.Make None (DatabaseManager.file m)
               (DatabaseManager.saves m) (DatabaseManager.diskError m))
       = (Ok d, m).
Proof.
  intros Hd m.
  destruct (run_staysSaved events (initialWorld config diskError)) as [Hn Hfile].
  { rewrite initialWorld_database. split; [exact Hd|]. simpl. by rewrite Hd. }
  fold m in Hn, Hfile.
  assert (exists d, DatabaseManager.db m = Some d) as [d Hdb].
  { pose proof (run_loaded events (initialWorld config diskError)) as H.
    apply H. rewrite initialWorld_database. by eexists. }
  exists d. split; [exact Hdb|].
  destruct m as [db file saves de]. simpl in *. subst. reflexivity.
Qed.

Lemma restart_reloads_witness :
  let env := sampleEnv ["a"] noSegments in
  let m := World.database
             (run [CallAddPlaylist (js "p1") samplePlaylist;
                   CallSyncPlaylist env samplePlaylist; MkdirDone 0 None;
                   ProcessClosed env 0 (Some 0%Z)]
                (initialWorld (sampleConfig 2) reliable)) in
  exists d,
    DatabaseManager.db m = Some d
    /\ load (DatabaseManager.Make None (DatabaseManager.file m)
               (DatabaseManager.saves m) (DatabaseManager.diskError m))
       = (Ok d, m).
Proof.
  intros env m.
  apply (restart_reloads_the_store (sampleConfig 2) reliable
           [CallAddPlaylist (js "p1") samplePlaylist;
            CallSyncPlaylist env samplePlaylist; MkdirDone 0 None;
            ProcessClosed env 0 (Some 0%Z)]).
  reflexivity.
Defined.

(** *** Properties of the process that every event keeps *)

#[export] Instance preserves_preorder I : PreOrder (preserves I).
Proof. split; [by intros w H | intros a b c H1 H2 H; auto]. Qed.

Section EngineInvariants.
Context (I : World.t -> Prop) `{!EngineInvariant I}.

Lemma preserves_onDb {A} (m : DB A) : keeps (preserves I) (onDb m).
Proof.
  intros w H. unfold onDb, zoom. destruct (m (World.database w)). simpl.
  by apply inv_database.
Qed.

Lemma preserves_unchanged {A} (m : W A) :
  (forall w, (m w).2 = w) -> keeps (preserves I) m.
Proof. intros Hm w H. by rewrite Hm. Qed.

Lemma preserves_getConfig : keeps (preserves I) getConfig.
Proof. apply preserves_unchanged. intros w. unfold getConfig. by case_match. Qed.

Lemma preserves_fsRm env folder : keeps (preserves I) (fsRm env folder).
Proof. apply preserves_unchanged. intros w. unfold fsRm. by case_match. Qed.

Lemma preserves_getPlaylistInfo env u : keeps (preserves I) (getPlaylistInfo env u).
Proof. apply preserves_unchanged. intros w. unfold getPlaylistInfo. by case_match. Qed.

Lemma preserves_pushAll items : keeps (preserves I) (pushAll items).
Proof. intros w H. by apply inv_queue. Qed.

Lemma preserves_probe env id c : keeps (preserves I) (checkSponsorBlockData env id c).
Proof. intros w H. by apply inv_probed. Qed.

Lemma preserves_startProcessing : keeps (preserves I) startProcessing.
Proof.
  intros w H. unfold startProcessing, modify. simpl.
  case_match; [exact H | by apply inv_processQueue].
Qed.

Ltac preserves_step :=
  match goal with
  | |- keeps _ (bind _ _) => apply keeps_bind; [apply _ | | intros ?]
  | |- keeps _ (ret _) => apply keeps_ret; apply _
  | |- keeps _ (catch _ _) => apply keeps_catch; [apply _ | | intros ?]
  | |- keeps _ (if _ then _ else _) => apply keeps_if
  | |- keeps _ (match _ with [] => _ | _ :: _ => _ end) => case_match
  | |- keeps _ (forEach _ _) => apply keeps_forEach; [apply _ | intros ? _]
  | |- keeps _ (filterM _ _) => apply keeps_filterM; [apply _ | intros ?]
  | |- keeps _ (onDb _) => apply preserves_onDb
  | |- keeps _ getConfig => apply preserves_getConfig
  | |- keeps _ (fsRm _ _) => apply preserves_fsRm
  | |- keeps _ (getPlaylistInfo _ _) => apply preserves_getPlaylistInfo
  | |- keeps _ (pushAll _) => apply preserves_pushAll
  | |- keeps _ startProcessing => apply preserves_startProcessing
  | |- keeps _ (checkSponsorBlockData _ _ _) => apply preserves_probe
  end.

Lemma preserves_syncPlaylist env playlist :
  keeps (preserves I) (syncPlaylist env playlist).
Proof. unfold syncPlaylist. repeat preserves_step. Qed.

Lemma preserves_syncAllPlaylists env : keeps (preserves I) (syncAllPlaylists env).
Proof. unfold syncAllPlaylists. repeat preserves_step. apply preserves_syncPlaylist. Qed.

Lemma preserves_redownloadVideo env video :
  keeps (preserves I) (redownloadVideo env video).
Proof. unfold redownloadVideo. repeat preserves_step. Qed.

Lemma preserves_sweep env : keeps (preserves I) (checkAndUpdateSponsorBlockVideos env).
Proof.
  unfold checkAndUpdateSponsorBlockVideos. repeat preserves_step.
  apply preserves_redownloadVideo.
Qed.

(** The events of the jobs and of the timer are left to each property. *)
Lemma run_preserves events w :
  (forall w, I w -> I (timerFired w)) ->
  (forall j error w, I w -> I (mkdirDone j error w)) ->
  (forall j line w, I w -> I (stdoutData j line w)) ->
  (forall env j code w, I w -> I (processClosed env j code w)) ->
  (forall env j message w, I w -> I (processError env j message w)) ->
  I w -> I (run events w).
Proof.
  intros Ht Hm Hs Hc He. revert w.
  induction events as [|e events IH]; intros w Hw; [exact Hw|].
  apply (IH (step e w)). destruct e; simpl; auto.
  - by apply preserves_syncPlaylist.
  - by apply preserves_syncAllPlaylists.
  - by apply preserves_sweep.
  - by apply (preserves_onDb (addPlaylist generatedId playlist)).
  - by apply (preserves_onDb (removePlaylist id)).
  - by apply (preserves_onDb (updatePlaylist id updates)).
Qed.

End EngineInvariants.



Lemma drainLoop_frame config queue w :
  World.activeDownloads (drainLoop config queue w) = World.activeDownloads w
  /\ World.configManager (drainLoop config queue w) = World.configManager w
  /\ World.jobs w `prefix_of` World.jobs (drainLoop config queue w).
Proof.
  revert w. induction queue as [|video queue IH]; intros w; simpl; [done|].
  case_match; [done|].
  destruct (IH (downloadVideoStart video (setDownloadQueue queue w))) as (Ha & Hc & Hj).
  assert (World.activeDownloads (downloadVideoStart video (setDownloadQueue queue w))
          = World.activeDownloads w
          /\ World.configManager (downloadVideoStart video (setDownloadQueue queue w))
             = World.configManager w
          /\ World.jobs w
             `prefix_of` World.jobs (downloadVideoStart video (setDownloadQueue queue w)))
    as (Ha' & Hc' & Hj').
  { unfold downloadVideoStart. simpl. case_match; simpl; repeat split; try done.
    by apply prefix_app_r. }
  repeat split; [congruence|congruence|by etransitivity].
Qed.

Lemma processQueue_frame w :
  World.activeDownloads (processQueue w) = World.activeDownloads w
  /\ World.configManager (processQueue w) = World.configManager w
  /\ World.jobs w `prefix_of` World.jobs (processQueue w).
Proof.
  unfold processQueue. destruct (World.isProcessingQueue w); [done|]. simpl.
  destruct (World.configManager w) as [c|] eqn:E; [|simpl; by rewrite ?E].
  destruct (drainLoop_frame c (World.downloadQueue w) (setIsProcessingQueue true w))
    as (Ha & Hc & Hj).
  simpl in *. rewrite E in Hc. done.
Qed.

Lemma activeAreRunning_grow w w' :
  World.activeDownloads w' = World.activeDownloads w ->
  World.jobs w `prefix_of` World.jobs w' ->
  activeAreRunning w -> activeAreRunning w'.
Proof.
  intros Ha [k Hk] H id j Hj. rewrite Ha in Hj.
  destruct (H id j Hj) as (job & Hjob & Hid & Hp).
  exists job. split; [|done]. rewrite Hk. by apply lookup_app_l_Some.
Qed.

#[export] Instance activeAreRunning_engine : EngineInvariant activeAreRunning.
Proof.
  split.
  - by intros x w H.
  - by intros x w H.
  - by intros x w H.
  - intros w H. destruct (processQueue_frame w) as (Ha & _ & Hj).
    by eapply activeAreRunning_grow.
Qed.


Lemma drainLoop_nothingStarted config queue w :
  nothingStarted config w -> nothingStarted config (drainLoop config queue w).
Proof.
  intros (Hmax & Hc & Hj & Ha & Ht).
  destruct queue as [|video queue].
  { simpl. by repeat split. }
  rewrite drainLoop_parks by (rewrite Ha, map_size_empty; simpl; lia).
  repeat split; try done. by right.
Qed.

#[export] Instance nothingStarted_engine config : EngineInvariant (nothingStarted config).
Proof.
  split.
  - by intros x w H.
  - by intros x w H.
  - by intros x w H.
  - intros w H. unfold processQueue. case_match; [exact H|].
    destruct H as (Hmax & Hc & Hj & Ha & Ht). simpl. rewrite Hc.
    apply drainLoop_nothingStarted. by repeat split.
Qed.

(** X12.  With [maxConcurrentDownloads] of 0 or less, no sequence of
    events ever starts a download: no job is created and the running set
    stays empty (the drain loop waits for ever). *)
Theorem nonpositive_ceiling_never_starts_a_download
    (config : Config.t) (diskError : nat -> option str) (events : list event) :
  (Config.maxConcurrentDownloads config <= 0)%Z ->
  let w := run events (initialWorld config diskError) in
  World.jobs w = [] /\ World.activeDownloads w = ∅.
Proof.
  intros Hmax w.
  assert (H : nothingStarted config w).
  { apply (run_preserves (nothingStarted config)).
    - intros w0 H. unfold timerFired.
      destruct H as (? & Hc & Hj & Ha & [Ht|Ht]); rewrite Ht; [by repeat split; auto|].
      apply drainLoop_nothingStarted. repeat split; auto.
    - intros j error w0 H. unfold mkdirDone.
      destruct H as (? & Hc & Hj & Ha & Ht). rewrite Hj. simpl. by repeat split.
    - intros j line w0 H. unfold stdoutData.
      destruct H as (? & Hc & Hj & Ha & Ht). rewrite Hj. simpl. by repeat split.
    - intros env j code w0 H. unfold processClosed.
      destruct H as (? & Hc & Hj & Ha & Ht). rewrite Hj. simpl. by repeat split.
    - intros env j message w0 H. unfold processError.
      destruct H as (? & Hc & Hj & Ha & Ht). rewrite Hj. simpl. by repeat split.
    - repeat split; auto. }
  destruct H as (_ & _ & Hj & Ha & _). by split.
Qed.

Lemma nonpositive_ceiling_witness :
  let env := sampleEnv ["a"; "b"] noSegments in
  let w := run [CallAddPlaylist (js "p1") samplePlaylist;
                CallSyncPlaylist env samplePlaylist; TimerFired;
                MkdirDone 0 None; TimerFired]
             (initialWorld (sampleConfig 0) reliable) in
  World.jobs w = [] /\ World.activeDownloads w = ∅.
Proof.
  intros env.
  apply (nonpositive_ceiling_never_starts_a_download (sampleConfig 0) reliable).
  simpl. lia.
Defined.

(** *** The purge of reconciliation *)

#[export] Instance sameRecords_preorder : PreOrder sameRecords.
Proof. split; [done|]. intros a b c H1 H2. unfold sameRecords in *. congruence. Qed.

Lemma NoDup_map_eq {A B} (f : A -> B) (l : list A) x y :
  NoDup (List.map f l) -> In x l -> In y l -> f x = f y -> x = y.
Proof.
  induction l as [|a l IH]; intros Hnd Hx Hy Hf; [destruct Hx|].
  cbn [List.map] in Hnd. apply NoDup_cons in Hnd as [Hna Hnd].
  destruct Hx as [->|Hx], Hy as [->|Hy]; try done.
  - exfalso. apply Hna. rewrite Hf. by apply list_elem_of_In, in_map.
  - exfalso. apply Hna. rewrite <- Hf. by apply list_elem_of_In, in_map.
  - by apply IH.
Qed.

Lemma filter_NoDup_map {A B} (f : A -> B) (g : A -> bool) (l : list A) :
  NoDup (List.map f l) -> NoDup (List.map f (List.filter g l)).
Proof.
  induction l as [|a l IH]; intros Hnd; [done|].
  cbn [List.map] in Hnd. apply NoDup_cons in Hnd as [Hna Hnd]. simpl.
  destruct (g a); [|by apply IH]. cbn [List.map]. apply NoDup_cons. split; [|by apply IH].
  intros Hin. apply Hna. apply list_elem_of_In, in_map_iff in Hin as (x & Hx & Hin).
  apply filter_In in Hin as [Hin _]. rewrite <- Hx. by apply list_elem_of_In, in_map.
Qed.

Lemma delete_first_unique (l : list Video.t) id i :
  NoDup (List.map Video.id l) ->
  findIndex (fun v => str_eqb (Video.id v) id) l = Some i ->
  delete i l = List.filter (fun v => negb (str_eqb (Video.id v) id)) l.
Proof.
  revert i. induction l as [|v l IH]; intros i Hnd; [discriminate|].
  cbn [List.map] in Hnd. apply NoDup_cons in Hnd as [Hna Hnd]. simpl.
  destruct (str_eqb (Video.id v) id) eqn:E; simpl.
  - intros [= <-]. simpl. symmetry. apply forallb_filter_id, forallb_forall.
    intros x Hx. apply negb_true_iff. unfold str_eqb in *.
    apply bool_decide_eq_true in E. apply bool_decide_eq_false. intros Hid.
    apply Hna. rewrite E, <- Hid. by apply list_elem_of_In, in_map.
  - destruct (findIndex _ l) as [k|]; [|discriminate]. intros [= <-]. simpl.
    f_equal. by apply IH.
Qed.

Lemma filter_no_match (l : list Video.t) id :
  findIndex (fun v => str_eqb (Video.id v) id) l = None ->
  List.filter (fun v => negb (str_eqb (Video.id v) id)) l = l.
Proof.
  induction l as [|v l IH]; simpl; [done|].
  destruct (str_eqb (Video.id v) id); [discriminate|]. simpl.
  destruct (findIndex _ l); [discriminate|]. intros _. f_equal. by apply IH.
Qed.

Lemma deleteVideo_unique id s :
  NoDup (List.map Video.id (recordsOf s)) ->
  recordsOf (deleteVideo id s).2
  = List.filter (fun v => negb (str_eqb (Video.id v) id)) (recordsOf s).
Proof.
  destruct s as [db file saves diskError]. unfold recordsOf. unfold_db. simpl.
  destruct db as [d|]; simpl; [|done]. intros Hnd.
  destruct (findIndex _ (Database.videos d)) as [i|] eqn:E; simpl.
  - destruct (diskError saves); simpl; by apply delete_first_unique.
  - symmetry. by apply filter_no_match.
Qed.

Lemma purge_loop_inv env (l : list Video.t) w w' :
  forEach l (fun video =>
    config <- getConfig ;;
    let videoFolder := pathJoin (Config.downloadPath config) (Video.id video) in
    catch (fsRm env videoFolder) (fun _ => ret tt) ;;;
    onDb (deleteVideo (Video.id video)) ;;;
    ret tt) w = (Ok tt, w') ->
  NoDup (List.map Video.id (videosOf w)) ->
  videosOf w'
  = List.filter (fun v => negb (bool_decide (Video.id v ∈ List.map Video.id l)))
      (videosOf w).
Proof.
  revert w. induction l as [|v l IH]; intros w H Hnd; simpl in *.
  { unfold ret in H. simplify_eq. symmetry.
    apply forallb_filter_id, forallb_forall. intros x _. done. }
  apply bind_inv_ok_unit in H as (w1 & Hbody & H).
  apply bind_inv_ok in Hbody as (config & w0 & Hc & Hbody).
  assert (w0 = w) as ->.
  { unfold getConfig in Hc. destruct (World.configManager w); by simplify_eq. }
  apply bind_inv_ok_unit in Hbody as (w0 & Hrm & Hbody).
  assert (w0 = w) as ->.
  { unfold catch, fsRm, throw, ret in Hrm.
    destruct (Env.rmError env _); by simplify_eq. }
  apply bind_inv_ok in Hbody as (r & w0 & Hdel & Hbody).
  unfold ret in Hbody. simplify_eq.
  assert (Hw1 : videosOf w1
                = List.filter (fun x => negb (str_eqb (Video.id x) (Video.id v)))
                    (videosOf w)).
  { unfold videosOf. unfold onDb, zoom in Hdel.
    pose proof (deleteVideo_unique (Video.id v) (World.database w) Hnd) as Hu.
    destruct (deleteVideo (Video.id v) (World.database w)) as [r' m']. simpl in *.
    simplify_eq. simpl. exact Hu. }
  rewrite (IH w1 H); [|rewrite Hw1; by apply filter_NoDup_map].
  rewrite Hw1. clear.
  induction (videosOf w) as [|x xs IHx]; simpl; [done|].
  unfold str_eqb at 1 3.
  destruct (decide (Video.id x = Video.id v)) as [E|E].
  - rewrite (bool_decide_eq_true_2 _ E). simpl.
    rewrite bool_decide_eq_true_2 by (rewrite E; left). simpl. exact IHx.
  - rewrite (bool_decide_eq_false_2 _ E). simpl.
    destruct (decide (Video.id x ∈ List.map Video.id l)) as [Hin|Hin].
    + rewrite (bool_decide_eq_true_2 _ Hin).
      rewrite bool_decide_eq_true_2 by (by right). simpl. exact IHx.
    + rewrite (bool_decide_eq_false_2 _ Hin).
      rewrite bool_decide_eq_false_2; [simpl; by f_equal|].
      intros [?|?]%elem_of_cons; done.
Qed.

Lemma getVideos_inv id w vs w' :
  id <> [] ->
  onDb (getVideos (Some id)) w = (Ok vs, w') ->
  w' = w
  /\ vs = List.filter (fun v => str_eqb (Video.playlistId v) id) (videosOf w).
Proof.
  intros Hid. destruct w as [[db file saves diskError] ? ? ? ? ? ? ?].
  unfold onDb, videosOf, recordsOf. unfold_db. simpl.
  destruct db; simpl; [|discriminate]. destruct id as [|c id]; [done|].
  intros ?; by simplify_eq.
Qed.

(** X17.  When the ids of the records are pairwise different and the
    playlist has a non-empty id, a reconciliation that returns leaves
    exactly the records that were there minus the records of this playlist
    whose id the listing no longer has.  (Without distinct ids
    [deleteVideo] may remove the record of another playlist.) *)
Theorem reconciliation_purges_the_unlisted_records
    (env : Env.t) (playlist : Playlist.t) (w w' : World.t) (n : Z)
    (info : PlaylistInfo.t) :
  Playlist.id playlist <> [] ->
  NoDup (List.map Video.id (videosOf w)) ->
  getPlaylistInfo env (Playlist.url playlist) w = (Ok info, w) ->
  syncPlaylist env playlist w = (Ok n, w') ->
  videosOf w' = List.filter (fun v => negb (unlisted playlist info v)) (videosOf w).
Proof.
  intros Hid Hnd Hi H. unfold syncPlaylist in H.
  rewrite (bind_ok _ _ _ _ _ Hi) in H.
  apply bind_inv_ok_unit in H as (w2 & H2 & H).
  assert (onDatabase sameRecords w w2) as R2.
  { eapply keeps_run; [|exact H2]. repeat keeps_step.
    intros s. apply updatePlaylist_records. }
  apply bind_inv_ok in H as (dbVideos & w3 & H3 & H).
  apply getVideos_inv in H3 as [-> ->]; [|exact Hid].
  apply bind_inv_ok_unit in H as (w4 & H4 & H).
  apply purge_loop_inv in H4; [|unfold videosOf; rewrite R2; exact Hnd].
  apply bind_inv_ok in H as (newVideos & w5 & H5 & H).
  apply filterM_notDownloaded_inv in H5 as [-> ->].
  apply bind_inv_ok_unit in H as (w6 & H6 & H).
  assert (onDatabase sameRecords w4 w6) as R6.
  { eapply keeps_run; [|exact H6]. repeat keeps_step. }
  apply bind_inv_ok in H as (updated & w7 & H7 & H).
  assert (onDatabase sameRecords w6 w7) as R7.
  { eapply keeps_run; [|exact H7]. repeat keeps_step.
    intros s. apply updatePlaylist_records. }
  apply bind_inv_ok_unit in H as (w8 & H8 & H).
  assert (onDatabase sameRecords w7 w8) as R8.
  { eapply keeps_run; [|exact H8]. repeat keeps_step. }
  unfold ret in H. simplify_eq.
  unfold onDatabase, sameRecords in *.
  unfold videosOf in *. rewrite R8, R7, R6, H4, R2.
  set (vs := recordsOf (World.database w)) in *.
  apply filter_ext_in. intros v Hv. f_equal. unfold unlisted.
  set (ids := List.map VideoInfo.id (PlaylistInfo.entries info)).
  destruct (str_eqb (Video.playlistId v) (Playlist.id playlist)
            && negb (bool_decide (Video.id v ∈ ids))) eqn:E.
  - apply bool_decide_eq_true. apply list_elem_of_In, in_map, filter_In.
    apply andb_prop in E as [E1 E2]. split.
    + apply filter_In. by split.
    + apply negb_true_iff, bool_decide_eq_false in E2. apply negb_true_iff.
      apply bool_decide_eq_false. intros Hin. apply E2.
      by apply elem_of_list_to_set in Hin.
  - apply bool_decide_eq_false. intros Hin.
    apply list_elem_of_In, in_map_iff in Hin as (u & Hu & Hin).
    apply filter_In in Hin as [Hin Hl]. apply filter_In in Hin as [Hin Hp].
    assert (u = v) as -> by (by eapply (NoDup_map_eq Video.id vs)).
    rewrite Hp in E. simpl in E. apply negb_false_iff, bool_decide_eq_true in E.
    apply negb_true_iff, bool_decide_eq_false in Hl. apply Hl.
    by apply elem_of_list_to_set.
Qed.

Lemma reconciliation_purge_witness :
  let env := sampleEnv ["b"; "c"] noSegments in
  let w := worldWith [sampleVideo "a" completed (Some true);
                      sampleVideo "b" completed (Some true);
                      sampleVideo "c" completed (Some true)] reliable in
  videosOf (syncPlaylist env samplePlaylist w).2
  = [sampleVideo "b" completed (Some true); sampleVideo "c" completed (Some true)].
Proof.
  intros env w.
  pose (info := PlaylistInfo.Make (js "PL1") (js "Talks")
                  (List.map (fun id => VideoInfo.Make (js id) (js id) (watchUrl (js id)))
                     ["b"; "c"]%string)).
  rewrite (reconciliation_purges_the_unlisted_records env samplePlaylist w
             (syncPlaylist env samplePlaylist w).2 0 info).
  - vm_compute. reflexivity.
  - vm_compute. discriminate.
  - apply (bool_decide_unpack _). vm_compute. reflexivity.
  - vm_compute. reflexivity.
  - vm_compute. reflexivity.
Defined.
